(** * Ephemeron: expiry tracking and reclamation

    A shallow embedding of the TTL parser and clamper (internal/hooks/ttl.go),
    the configuration validation (internal/config), the webhook handler
    (internal/hooks/handler.go), the recovery runner
    (internal/recover/recover.go) and the reaper, together with the
    properties the specification states about them.

    Conventions.  A [time.Duration] and a [time.Time] are integers counting
    nanoseconds (the latter since the Unix epoch); 64-bit arithmetic is
    written with its wrap-around; Go strings are [string]s of bytes; a Go
    [error] is its message; a function returning [(T, error)] returns a
    [result T], one returning [error] an [option error] ([None] is [nil]).

    The components act on a [world]: the coordination store (tracking
    records, initialization marker, reap lock) and the log of the calls made
    to the collaborators.  What the collaborators answer during one run is
    given by an [env]: the clock reading, the store operations that fail,
    the registry's answers.  Logging and metrics are not modelled. *)

From Stdlib Require Import ZArith Lia Ascii String List Bool.
From stdpp Require Import gmap strings list.

Open Scope string_scope.
Open Scope list_scope.
Open Scope Z_scope.

(** ** 64-bit signed integers (Go's [int], [int64] and [time.Duration]) *)

Module Int64.

Definition MaxInt64 : Z := 9223372036854775807.
Definition MinInt64 : Z := -9223372036854775808.

(** The value an [int64] holds after an operation whose exact result is [z]. *)
Definition wrap (z : Z) : Z := (z + 9223372036854775808) mod 18446744073709551616 - 9223372036854775808.

Definition add (a b : Z) : Z := wrap (a + b).
Definition mul (a b : Z) : Z := wrap (a * b).

Definition inRange (z : Z) : Prop := MinInt64 <= z <= MaxInt64.

End Int64.

(** ** Package [time]: the duration constants *)

Module Time.

Definition Nanosecond : Z := 1.
Definition Millisecond : Z := 1000000.
Definition Second : Z := 1000000000.
Definition Minute : Z := 60 * Second.
Definition Hour : Z := 60 * Minute.

(** [t.Add(d)] on a time in nanoseconds (no time of interest is near the
    ends of the representable range). *)
Definition Add (t d : Z) : Z := t + d.

(** [t.UnixMilli()]: whole milliseconds since the epoch. *)
Definition UnixMilli (t : Z) : Z := t / Millisecond.

End Time.

(** ** internal/hooks/ttl.go *)

Module TTL.

(** [\d] of Go's regexp syntax: the ASCII digits only. *)
Definition isDigit (c : ascii) : bool :=
  let n := N_of_ascii c in (48 <=? n)%N && (n <=? 57)%N.

Fixpoint allDigits (s : string) : bool :=
  match s with
  | EmptyString => true
  | String c r => isDigit c && allDigits r
  end.

(** The longest run of digits at the start of [s], and what follows it. *)
Fixpoint digitsPrefix (s : string) : string * string :=
  match s with
  | EmptyString => (EmptyString, EmptyString)
  | String c r =>
      if isDigit c
      then let (d, r') := digitsPrefix r in (String c d, r')
      else (EmptyString, s)
  end.

(** One optional group [(?:(\d+)u)?] of [durationPattern] applied at the
    start of [s]: the capture (empty when the group does not take part) and
    the remaining input.  The digits of the group can only be the whole run
    of digits, because the unit letter that has to follow is not a digit. *)
Definition optGroup (u : ascii) (s : string) : string * string :=
  match digitsPrefix s with
  | (String c0 d, String c r) =>
      if Ascii.eqb c u then (String c0 d, r) else (EmptyString, s)
  | _ => (EmptyString, s)
  end.

(** [durationPattern.FindStringSubmatch(tag)] for
    [^(?:(\d+)w)?(?:(\d+)d)?(?:(\d+)h)?(?:(\d+)m)?(?:(\d+)s)?$]:
    [None] is Go's [nil]; otherwise the slice holds the whole match and the
    five captures. *)
Definition FindStringSubmatch (tag : string) : option (list string) :=
  let '(w, s1) := optGroup "w" tag in
  let '(d, s2) := optGroup "d" s1 in
  let '(h, s3) := optGroup "h" s2 in
  let '(m, s4) := optGroup "m" s3 in
  let '(s, s5) := optGroup "s" s4 in
  match s5 with
  | EmptyString => Some [tag; w; d; h; m; s]
  | _ => None
  end.

(** What the pattern means, to compare [FindStringSubmatch] with.
    [group u cap text]: the optional group [(?:(\d+)u)?] matches [text]
    and captures [cap]; either it takes no part, or [text] is one or more
    digits and the unit letter. *)
Inductive group (u : ascii) : string -> string -> Prop :=
| group_absent : group u EmptyString EmptyString
| group_present (digits : string) :
    digits <> EmptyString -> allDigits digits = true ->
    group u digits (digits +:+ String u EmptyString).

(** The groups for the unit letters [us], one after the other, match the
    whole of a text. *)
Inductive groups : list ascii -> list string -> string -> Prop :=
| groups_nil : groups [] [] EmptyString
| groups_cons u us cap caps text rest :
    group u cap text -> groups us caps rest ->
    groups (u :: us) (cap :: caps) (text +:+ rest).

Definition units : list ascii := ["w"; "d"; "h"; "m"; "s"]%char.

(** [tag] as a whole matches [durationPattern] with the captures [caps]. *)
Definition patternMatch (tag : string) (caps : list string) : Prop :=
  groups units caps tag.

(** The five groups applied in turn, as [FindStringSubmatch] does. *)
Fixpoint matchGroups (us : list ascii) (s : string) : option (list string) :=
  match us with
  | [] => match s with EmptyString => Some [] | _ => None end
  | u :: us' =>
      let (cap, rest) := optGroup u s in
      option_map (cons cap) (matchGroups us' rest)
  end.

(** [matches[i]]; the slice always has six entries. *)
Definition index (matches : list string) (i : nat) : string :=
  nth i matches EmptyString.

Definition nonEmpty (s : string) : bool := negb (String.eqb s EmptyString).

Definition digitVal (c : ascii) : Z := Z.of_N (N_of_ascii c) - 48.

(** The number a string of decimal digits denotes. *)
Fixpoint decimal (acc : Z) (s : string) : Z :=
  match s with
  | EmptyString => acc
  | String c r => decimal (10 * acc + digitVal c) r
  end.

(** [n, _ := strconv.Atoi(s)] on a 64-bit platform, for the unsigned
    decimal strings the pattern captures: the value, or [MaxInt64] when it
    does not fit (the range error is dropped by the caller); [0] on a
    syntax error. *)
Definition Atoi (s : string) : Z :=
  if nonEmpty s && allDigits s
  then Z.min (decimal 0 s) Int64.MaxInt64
  else 0.

(** One [if matches[i] != "" { n, _ := Atoi(matches[i]); d += ... }]. *)
Definition addComponent (matches : list string) (i : nat)
    (scale : Z -> Z) (d : Z) : Z :=
  if nonEmpty (index matches i)
  then Int64.add d (scale (Atoi (index matches i)))
  else d.

Definition weeks (n : Z) : Z := Int64.mul (Int64.mul (Int64.mul n 7) 24) Time.Hour.
Definition days (n : Z) : Z := Int64.mul (Int64.mul n 24) Time.Hour.
Definition hours (n : Z) : Z := Int64.mul n Time.Hour.
Definition minutes (n : Z) : Z := Int64.mul n Time.Minute.
Definition seconds (n : Z) : Z := Int64.mul n Time.Second.

Definition ParseTTL (tag : string) : Z :=
  if String.eqb tag EmptyString then -1
  else
    match FindStringSubmatch tag with
    | None => -1
    | Some matches =>
        let hasValue := existsb nonEmpty (tl matches) in
        if negb hasValue then -1
        else
          let d := 0 in
          let d := addComponent matches 1 weeks d in
          let d := addComponent matches 2 days d in
          let d := addComponent matches 3 hours d in
          let d := addComponent matches 4 minutes d in
          let d := addComponent matches 5 seconds d in
          d
    end.

(** The duration the captures of a match denote, in unbounded arithmetic:
    what [ParseTTL] computes when nothing overflows. *)
Definition exactTTL (matches : list string) : Z :=
  decimal 0 (index matches 1) * (7 * 24 * Time.Hour)
  + decimal 0 (index matches 2) * (24 * Time.Hour)
  + decimal 0 (index matches 3) * Time.Hour
  + decimal 0 (index matches 4) * Time.Minute
  + decimal 0 (index matches 5) * Time.Second.

Definition ClampTTL (d defaultTTL maxTTL : Z) : Z :=
  if d <=? 0 then defaultTTL
  else if d >? maxTTL then maxTTL
  else d.

End TTL.

(** ** internal/config/config.go *)

Module Config.

Record Config := {
  Port : Z;
  InternalPort : Z;
  RedisURL : string;
  HookToken : string;
  RegistryURL : string;
  Hostname : string;
  DefaultTTL : Z;
  MaxTTL : Z;
  ReapInterval : Z;
  LogFormat : string
}.

(** [Validate]: [None] is Go's [nil] error.  The last message leaves out
    the two durations the source formats into it. *)
Definition Validate (c : Config) : option string :=
  if String.eqb (RedisURL c) "" then Some "REDIS_URL is required"
  else if String.eqb (HookToken c) "" then Some "HOOK_TOKEN is required"
  else if String.eqb (RegistryURL c) "" then Some "REGISTRY_URL is required"
  else if DefaultTTL c <=? 0 then Some "DEFAULT_TTL must be positive"
  else if MaxTTL c <=? 0 then Some "MAX_TTL must be positive"
  else if DefaultTTL c >? MaxTTL c then Some "DEFAULT_TTL must not exceed MAX_TTL"
  else None.

End Config.

(** ** Errors, results and the collaborators *)

Definition error := string.

Inductive result (A : Type) : Type :=
| Ok (a : A)
| Err (e : error).
Arguments Ok {A} a.
Arguments Err {A} e.

(** [fmt.Errorf(prefix + ": %w", err)]. *)
Definition wrapError (prefix : string) (e : error) : error :=
  prefix +:+ ": " +:+ e.

(** What the registry answers when a tag is resolved to its digest
    ([HEAD /v2/{repo}/manifests/{tag}]). *)
Inductive headResponse :=
| HeadDigest (digest : string)
| HeadNotFound
| HeadFailed (e : error).

(** The calls the components make to their collaborators, in the order they
    are made.  [EvDeleteImage] marks that the reap cycle hands a reference
    to the deletion path. *)
Inductive event :=
| EvIsInitialized
| EvSetInitialized
| EvTrackImage (imageWithTag : string) (expiresAt : Z)
| EvListImages
| EvGetExpiry (imageWithTag : string)
| EvRemoveImage (imageWithTag : string)
| EvAcquireReaperLock
| EvReleaseReaperLock
| EvListRepositories
| EvListTags (repo : string)
| EvDeleteImage (imageWithTag : string)
| EvResolveDigest (repo tag : string)
| EvDeleteManifest (repo digest : string).

(** The metadata hash the store keeps per tracked image (epoch
    milliseconds), as [Client.TrackImage] writes it. *)
Record meta := { created : Z; expires : Z }.

(** The coordination store (tracking set with metadata, initialization
    marker, reap lock) together with the log of calls made so far. *)
Record world := {
  images : gmap string meta;
  initialized : bool;
  lockHeld : bool;
  calls : list event
}.

Definition setImages (f : gmap string meta -> gmap string meta) (w : world) : world :=
  {| images := f (images w); initialized := initialized w;
     lockHeld := lockHeld w; calls := calls w |}.

Definition setInitializedFlag (b : bool) (w : world) : world :=
  {| images := images w; initialized := b;
     lockHeld := lockHeld w; calls := calls w |}.

Definition setLockHeld (b : bool) (w : world) : world :=
  {| images := images w; initialized := initialized w;
     lockHeld := b; calls := calls w |}.

Definition logCall (c : event) (w : world) : world :=
  {| images := images w; initialized := initialized w;
     lockHeld := lockHeld w; calls := calls w ++ [c] |}.

(** How the surroundings answer during one run: the clock reading, which
    store operations fail, and what the registry returns.  The answers are
    functions of the call's arguments. *)
Record env := {
  now : Z;
  isInitializedErr : option error;
  setInitializedErr : option error;
  trackImageErr : string -> option error;
  listImagesErr : option error;
  listRepositories : result (list string);
  listTags : string -> result (list string);
  resolveDigest : string -> string -> headResponse;
  deleteManifest : string -> string -> result Z
}.

(** Computations that read and update the world. *)
Definition M (A : Type) : Type := world -> A * world.

Definition ret {A} (a : A) : M A := fun w => (a, w).

Definition bind {A B} (c : M A) (k : A -> M B) : M B :=
  fun w => let (a, w') := c w in k a w'.

Declare Scope m_scope.
Delimit Scope m_scope with M.
Notation "x <- c ;; k" := (bind c (fun x => k))
  (at level 100, c at next level, right associativity) : m_scope.
Notation "c ;;; k" := (bind c (fun _ => k))
  (at level 100, right associativity) : m_scope.

Definition call (c : event) : M unit := fun w => (tt, logCall c w).
Definition get : M world := fun w => (w, w).
Definition modify (f : world -> world) : M unit := fun w => (tt, f w).

(** [for _, x := range l { f(x) }]. *)
Fixpoint forEach {A} (f : A -> M unit) (l : list A) : M unit :=
  match l with
  | [] => ret tt
  | x :: rest => bind (f x) (fun _ => forEach f rest)
  end.

(** ** internal/redis: the [Store] operations *)

Module Store.
Section Store.
Context (E : env).
Local Open Scope m_scope.

(** [TrackImage]: adds the image to the tracking set and writes its
    [created] and [expires] fields, or fails as a whole. *)
Definition TrackImage (imageWithTag : string) (expiresAt : Z) : M (option error) :=
  call (EvTrackImage imageWithTag expiresAt) ;;;
  match trackImageErr E imageWithTag with
  | Some e => ret (Some e)
  | None =>
      modify (setImages (insert imageWithTag
        {| created := Time.UnixMilli (now E);
           expires := Time.UnixMilli expiresAt |})) ;;;
      ret None
  end.

Definition IsInitialized : M (result bool) :=
  call EvIsInitialized ;;;
  match isInitializedErr E with
  | Some e => ret (Err e)
  | None => w <- get ;; ret (Ok (initialized w))
  end.

Definition SetInitialized : M (option error) :=
  call EvSetInitialized ;;;
  match setInitializedErr E with
  | Some e => ret (Some e)
  | None => modify (setInitializedFlag true) ;;; ret None
  end.

(** [ListImages]: the members of the tracking set, in the order the map
    enumerates them (the store promises no order, and none of the
    properties below depends on it). *)
Definition ListImages : M (result (list string)) :=
  call EvListImages ;;;
  match listImagesErr E with
  | Some e => ret (Err e)
  | None => w <- get ;; ret (Ok (map fst (map_to_list (images w))))
  end.

(** [GetExpiry]: the [expires] field, an error when the hash is absent. *)
Definition GetExpiry (imageWithTag : string) : M (result Z) :=
  call (EvGetExpiry imageWithTag) ;;;
  w <- get ;;
  match images w !! imageWithTag with
  | Some m => ret (Ok (expires m))
  | None => ret (Err "redis: nil")
  end.

(** [RemoveImage]: drops the set member and its hash together; removing an
    absent image changes nothing.  Only the reaper calls it, and the
    specification gives [removeArtifact] no failure of its own, so none is
    modelled; likewise for the lock. *)
Definition RemoveImage (imageWithTag : string) : M (option error) :=
  call (EvRemoveImage imageWithTag) ;;;
  modify (setImages (delete imageWithTag)) ;;;
  ret None.

(** [AcquireReaperLock]: set-if-absent; tells whether this caller now
    holds the lock. *)
Definition AcquireReaperLock : M bool :=
  call EvAcquireReaperLock ;;;
  w <- get ;;
  if lockHeld w then ret false
  else modify (setLockHeld true) ;;; ret true.

Definition ReleaseReaperLock : M unit :=
  call EvReleaseReaperLock ;;;
  modify (setLockHeld false).

End Store.
End Store.

(** ** internal/registry: the catalog client, as the recovery runner sees it *)

Module Registry.
Section Registry.
Context (E : env).
Local Open Scope m_scope.

Definition ListRepositories : M (result (list string)) :=
  call EvListRepositories ;;; ret (listRepositories E).

Definition ListTags (repo : string) : M (result (list string)) :=
  call (EvListTags repo) ;;; ret (listTags E repo).

End Registry.
End Registry.

(** [fmt.Sprintf("%s:%s", repo, tag)]. *)
Definition imageRef (repo tag : string) : string := repo +:+ ":" +:+ tag.

(** ** internal/hooks/handler.go *)

Module Hooks.

Record EventTarget := { Repository : string; Tag : string }.
Record RegistryEvent := { Action : string; Target : EventTarget }.
Record EventEnvelope := { Events : list RegistryEvent }.

(** The handler's store is the [world]; its logger is not modelled. *)
Record Handler := { hookToken : string; defaultTTL : Z; maxTTL : Z }.

(** A request: its method, its [Authorization] header and what decoding
    its body as JSON gives. *)
Record Request := {
  Method : string;
  Authorization : string;
  Body : result EventEnvelope
}.

Record Response := { Code : Z; Written : string }.

Definition StatusOK : Z := 200.
Definition StatusBadRequest : Z := 400.
Definition StatusUnauthorized : Z := 401.
Definition StatusMethodNotAllowed : Z := 405.

(** [http.Error(w, msg, code)]: the status, and the message on a line. *)
Definition httpError (msg : string) (code : Z) : Response :=
  {| Code := code; Written := msg +:+ String "010" EmptyString |}.

Section Hooks.
Context (E : env).
Local Open Scope m_scope.

Definition handlePush (h : Handler) (repo tag : string) : M (option error) :=
  let imageWithTag := imageRef repo tag in
  let ttl := TTL.ClampTTL (TTL.ParseTTL tag) (defaultTTL h) (maxTTL h) in
  let expiresAt := Time.Add (now E) ttl in
  Store.TrackImage E imageWithTag expiresAt.

(** The body of the loop over [envelope.Events]; a failed [handlePush] is
    logged and the loop goes on. *)
Definition handleEvent (h : Handler) (ev : RegistryEvent) : M unit :=
  if negb (String.eqb (Action ev) "push") then ret tt
  else if String.eqb (Repository (Target ev)) "" || String.eqb (Tag (Target ev)) ""
  then ret tt
  else _ <- handlePush h (Repository (Target ev)) (Tag (Target ev)) ;; ret tt.

Definition ServeHTTP (h : Handler) (r : Request) : M Response :=
  if negb (String.eqb (Method r) "POST")
  then ret (httpError "method not allowed" StatusMethodNotAllowed)
  else if negb (String.eqb (Authorization r) ("Token " +:+ hookToken h))
  then ret {| Code := StatusUnauthorized; Written := "{}" |}
  else
    match Body r with
    | Err _ => ret (httpError "bad request" StatusBadRequest)
    | Ok envelope =>
        forEach (handleEvent h) (Events envelope) ;;;
        ret {| Code := StatusOK; Written := "{}" |}
    end.

(** Whether the loop of [ServeHTTP] hands an event to [handlePush], and
    the [TrackImage] call [handlePush] then makes; used to state what a
    request does. *)
Definition isTrackedPush (ev : RegistryEvent) : bool :=
  String.eqb (Action ev) "push"
  && negb (String.eqb (Repository (Target ev)) "" || String.eqb (Tag (Target ev)) "").

Definition pushCall (h : Handler) (ev : RegistryEvent) : event :=
  EvTrackImage (imageRef (Repository (Target ev)) (Tag (Target ev)))
    (Time.Add (now E)
       (TTL.ClampTTL (TTL.ParseTTL (Tag (Target ev))) (defaultTTL h) (maxTTL h))).

End Hooks.
End Hooks.

(** ** internal/recover/recover.go *)

Module Recover.

(** The runner's store and registry are the [world] and the [env]. *)
Record Runner := { defaultTTL : Z; maxTTL : Z }.

Section Recover.
Context (E : env).
Local Open Scope m_scope.

(** The body of [for _, tag := range tags]; whether [TrackImage] fails or
    not the loop goes on (the [recovered] counter only feeds the log). *)
Definition recoverTag (r : Runner) (repo tag : string) : M unit :=
  let ttl := TTL.ClampTTL (TTL.ParseTTL tag) (defaultTTL r) (maxTTL r) in
  let expiresAt := Time.Add (now E) ttl in
  let imageWithTag := imageRef repo tag in
  _ <- Store.TrackImage E imageWithTag expiresAt ;; ret tt.

(** The body of [for _, repo := range repos]. *)
Definition recoverRepo (r : Runner) (repo : string) : M unit :=
  tags <- Registry.ListTags E repo ;;
  match tags with
  | Err _ => ret tt
  | Ok tags => forEach (recoverTag r repo) tags
  end.

Definition Run (r : Runner) : M (option error) :=
  repos <- Registry.ListRepositories E ;;
  match repos with
  | Err e => ret (Some (wrapError "listing repositories" e))
  | Ok repos => forEach (recoverRepo r) repos ;;; ret None
  end.

Definition RunIfNeeded (r : Runner) : M (option error) :=
  initialized <- Store.IsInitialized E ;;
  match initialized with
  | Err e => ret (Some (wrapError "checking initialization state" e))
  | Ok true => ret None
  | Ok false =>
      err <- Run r ;;
      match err with
      | Some e => ret (Some e)
      | None =>
          err <- Store.SetInitialized E ;;
          match err with
          | Some e => ret (Some (wrapError "setting initialized flag" e))
          | None => ret None
          end
      end
  end.

(** The calls the loop body makes for one repository of the catalog, as a
    function of what the collaborators answer: the tag listing, and one
    [TrackImage] per tag when the listing succeeded.  Used to state what a
    run does. *)
Definition trackCall (r : Runner) (repo tag : string) : event :=
  EvTrackImage (imageRef repo tag)
    (Time.Add (now E) (TTL.ClampTTL (TTL.ParseTTL tag) (defaultTTL r) (maxTTL r))).

Definition repoCalls (r : Runner) (repo : string) : list event :=
  EvListTags repo ::
  match listTags E repo with
  | Ok tags => map (trackCall r repo) tags
  | Err _ => []
  end.

(** The images of one repository whose [TrackImage] succeeds during a run;
    used to state which images a run leaves tracked. *)
Definition writable (imageWithTag : string) : bool :=
  match trackImageErr E imageWithTag with
  | None => true
  | Some _ => false
  end.

Definition recoveredOf (repo : string) : list string :=
  match listTags E repo with
  | Ok tags => List.filter writable (map (imageRef repo) tags)
  | Err _ => []
  end.

End Recover.
End Recover.

(** ** internal/reaper *)

Module Reaper.

(** [strings.Split(s, ":")]. *)
Fixpoint splitColon (s : string) : list string :=
  match s with
  | EmptyString => [EmptyString]
  | String c r =>
      if Ascii.eqb c ":" then EmptyString :: splitColon r
      else
        match splitColon r with
        | p :: ps => String c p :: ps
        | [] => [String c EmptyString]
        end
  end.

(** Modelled from the spec: the reference format check of
    internal/reaper/reaper.go, which is not among the sources.  A reference
    must split into exactly a repository part and a tag part. *)
Definition splitImage (imageWithTag : string) : option (string * string) :=
  match splitColon imageWithTag with
  | [repo; tag] => Some (repo, tag)
  | _ => None
  end.




(** Modelled from the spec: the statuses of a manifest deletion that
    internal/reaper/reaper.go (not among the sources) accepts; the
    architecture notes list 200, 202 and 404. *)
Definition acceptedStatus (status : Z) : bool :=
  (status =? 200) || (status =? 202) || (status =? 404).

Section Reaper.
Context (E : env).
Local Open Scope m_scope.

(** Modelled from the spec: [Reaper.deleteImage] of
    internal/reaper/reaper.go, which is not among the sources (its tests
    and the architecture notes are).  The reference is validated before any
    network call; its tag is resolved to a content digest and the manifest
    is deleted by that digest; an artifact that is already gone counts as
    deleted.  On an accepted outcome the tracking record is removed, on any
    other outcome an error is returned and the record stays. *)
Definition deleteImage (imageWithTag : string) : M (option error) :=
  match splitImage imageWithTag with
  | None => ret (Some (wrapError "invalid image format" imageWithTag))
  | Some (repo, tag) =>
      call (EvResolveDigest repo tag) ;;;
      match resolveDigest E repo tag with
      | HeadFailed e => ret (Some (wrapError "getting manifest digest" e))
      | HeadNotFound => Store.RemoveImage imageWithTag
      | HeadDigest digest =>
          call (EvDeleteManifest repo digest) ;;;
          match deleteManifest E repo digest with
          | Err e => ret (Some (wrapError "deleting manifest" e))
          | Ok status =>
              if acceptedStatus status
              then Store.RemoveImage imageWithTag
              else ret (Some "unexpected status deleting manifest")
          end
      end
  end.

(** Modelled from the spec: the per-reference step of the reap cycle
    (state [Evaluating]).  A reference whose expiry cannot be read or lies
    after the current time is skipped; an expired one is handed to
    [deleteImage], whose failure is logged and does not stop the cycle.
    The reads that only feed the metrics are left out. *)
Definition reapImage (imageWithTag : string) : M unit :=
  expiresAt <- Store.GetExpiry imageWithTag ;;
  match expiresAt with
  | Err _ => ret tt
  | Ok expiresAt =>
      if Time.UnixMilli (now E) <? expiresAt then ret tt
      else
        call (EvDeleteImage imageWithTag) ;;;
        _ <- deleteImage imageWithTag ;;
        ret tt
  end.

(** Modelled from the spec: [Reaper.ReapOnce] of internal/reaper/reaper.go,
    which is not among the sources.  [Idle -> LockAttempt -> Skipped], or
    [-> Scanning -> Evaluating (per reference) -> Done]; a failed listing
    is the only cycle-level error, and the lock is released either way. *)
Definition ReapOnce : M (option error) :=
  acquired <- Store.AcquireReaperLock ;;
  if negb acquired then ret None
  else
    listed <- Store.ListImages E ;;
    match listed with
    | Err e =>
        Store.ReleaseReaperLock ;;;
        ret (Some (wrapError "listing images" e))
    | Ok refs =>
        forEach reapImage refs ;;;
        Store.ReleaseReaperLock ;;;
        ret None
    end.

End Reaper.



End Reaper.

(** ** Package [fmt]: the verb [%d] *)

Module Fmt.

Definition digitChar (d : Z) : ascii := ascii_of_N (Z.to_N (48 + d)).

(** The decimal digits of [n >= 0], most significant first, put in front of
    [acc]; [fuel] bounds the number of digits. *)
Fixpoint digits (fuel : nat) (n : Z) (acc : string) : string :=
  match fuel with
  | O => acc
  | S fuel' =>
      let acc' := String (digitChar (n mod 10)) acc in
      if n <? 10 then acc' else digits fuel' (n / 10) acc'
  end.

(** A number below [2^k] has at most [k] decimal digits. *)
Definition digitsFuel (n : Z) : nat := S (Z.to_nat (Z.log2 n)).

(** [fmt.Sprintf("%d", n)]. *)
Definition Itoa (n : Z) : string :=
  if n <? 0 then String "-" (digits (digitsFuel (- n)) (- n) EmptyString)
  else digits (digitsFuel n) n EmptyString.

End Fmt.

(** ** internal/web/handler.go *)

Module Web.
Section Web.

(** [d.String()] of package [time], which the landing page falls back to. *)
Context (durationString : Z -> string).

(** [formatDuration].  [%] and [/] are Go's, truncating toward zero.
    [int(d.Hours())] and [int(d.Minutes())] are taken where the remainder
    is zero, so the floating-point value is the whole quotient, which is
    below [2^53] and hence exact. *)
Definition formatDuration (d : Z) : string :=
  if (d >=? 24 * Time.Hour) && (Z.rem d (24 * Time.Hour) =? 0) then
    let days := Z.quot d (24 * Time.Hour) in
    if days =? 1 then "1 day" else Fmt.Itoa days +:+ " days"
  else if (d >=? Time.Hour) && (Z.rem d Time.Hour =? 0) then
    Fmt.Itoa (Z.quot d Time.Hour) +:+ "h"
  else if (d >=? Time.Minute) && (Z.rem d Time.Minute =? 0) then
    Fmt.Itoa (Z.quot d Time.Minute) +:+ "m"
  else durationString d.

End Web.
End Web.

(** ** internal/registry/client.go *)

Module Client.

(** [strings.TrimRight(s, "/")]. *)
Fixpoint trimRightSlash (s : string) : string :=
  match s with
  | EmptyString => EmptyString
  | String c r =>
      match trimRightSlash r with
      | EmptyString => if Ascii.eqb c "/" then EmptyString else String c EmptyString
      | r' => String c r'
      end
  end.

(** Whether a string is made of slashes only; used to state what
    [trimRightSlash] removes. *)
Fixpoint onlySlashes (s : string) : bool :=
  match s with
  | EmptyString => true
  | String c r => Ascii.eqb c "/" && onlySlashes r
  end.

(** [strings.Index(s, sep)] for a separator of one byte: the position of
    its first occurrence, [-1] when there is none. *)
Fixpoint indexByte (sep : ascii) (s : string) : Z :=
  match s with
  | EmptyString => -1
  | String c r =>
      if Ascii.eqb c sep then 0
      else let i := indexByte sep r in if i <? 0 then -1 else i + 1
  end.

(** [s[lo:hi]], for [0 <= lo <= hi <= len(s)]. *)
Definition slice (s : string) (lo hi : Z) : string :=
  substring (Z.to_nat lo) (Z.to_nat (hi - lo)) s.

(** [strings.HasPrefix(s, "/")]. *)
Definition hasSlashPrefix (s : string) : bool :=
  match s with
  | String c _ => Ascii.eqb c "/"
  | EmptyString => false
  end.

(** The client; its [http.Client] is the [transport] below. *)
Record Client := { baseURL : string }.

Definition New (registryURL : string) : Client :=
  {| baseURL := trimRightSlash registryURL |}.

(** [nextLink], given the value of the response's [Link] header (empty
    when the header is absent). *)
Definition nextLink (link baseURL : string) : string :=
  if String.eqb link EmptyString then EmptyString
  else
    let start := indexByte "<" link in
    let end_ := indexByte ">" link in
    if (start <? 0) || (end_ <? 0) || (end_ <=? start) then EmptyString
    else
      let path := slice link (start + 1) end_ in
      if hasSlashPrefix path then baseURL +:+ path else path.

(** A response as the client reads it: what decoding the body gives (the
    [repositories] or [tags] field) and the [Link] header.  The status code
    is never looked at. *)
Record response := { decoded : result (list string); linkHeader : string }.

(** How the network answers: whether a request can be built for a URL
    ([http.NewRequestWithContext]), and what [httpClient.Do] returns. *)
Record transport := {
  newRequestErr : string -> option error;
  roundTrip : string -> result response
}.

Section Client.
Context (T : transport) (c : Client).

(** The loop [for url != "" { ... }] shared, up to the error messages, by
    [ListRepositories] and [ListTags].  [fuel] bounds the number of
    requests; [None] means it was used up before the loop ended. *)
Fixpoint drain (creating doing decoding : string) (fuel : nat)
    (url : string) (all : list string) : option (result (list string)) :=
  if String.eqb url EmptyString then Some (Ok all)
  else
    match fuel with
    | O => None
    | S fuel' =>
        match newRequestErr T url with
        | Some e => Some (Err (wrapError creating e))
        | None =>
            match roundTrip T url with
            | Err e => Some (Err (wrapError doing e))
            | Ok resp =>
                match decoded resp with
                | Err e => Some (Err (wrapError decoding e))
                | Ok names =>
                    drain creating doing decoding fuel'
                      (nextLink (linkHeader resp) (baseURL c)) (all ++ names)
                end
            end
        end
    end.

Definition ListRepositories (fuel : nat) : option (result (list string)) :=
  drain "creating catalog request" "listing catalog" "decoding catalog response"
    fuel (baseURL c +:+ "/v2/_catalog?n=1000") [].

Definition ListTags (fuel : nat) (repo : string) : option (result (list string)) :=
  drain "creating tags request" ("listing tags for " +:+ repo)
    "decoding tags response"
    fuel (baseURL c +:+ "/v2/" +:+ repo +:+ "/tags/list?n=1000") [].

(** The pages reached from [url] by following the [Link] headers, and the
    names on them, until a response has no next link. *)
Inductive pages : string -> list string -> Prop :=
| pages_done : pages EmptyString []
| pages_next url resp names rest :
    url <> EmptyString ->
    newRequestErr T url = None ->
    roundTrip T url = Ok resp ->
    decoded resp = Ok names ->
    pages (nextLink (linkHeader resp) (baseURL c)) rest ->
    pages url (names ++ rest).

End Client.
End Client.

(** ** cmd/main.go: the configuration read from the environment *)

Module Main.
Section Main.

(** [os.Getenv], the integer [fmt.Sscanf(v, "%d", &n)] scans ([None] when
    it reports an error) and [time.ParseDuration] ([None] on an error). *)
Context (getenv : string -> string).
Context (scanInt : string -> option Z).
Context (parseDuration : string -> option Z).

Definition envStr (key fallback : string) : string :=
  let v := getenv key in
  if TTL.nonEmpty v then v else fallback.

Definition envInt (key : string) (fallback : Z) : Z :=
  let v := getenv key in
  if TTL.nonEmpty v then
    match scanInt v with
    | Some n => n
    | None => fallback
    end
  else fallback.

Definition envDuration (key : string) (fallback : Z) : Z :=
  let v := getenv key in
  if TTL.nonEmpty v then
    match parseDuration v with
    | Some d => d
    | None => fallback
    end
  else fallback.

Definition newConfig : Config.Config :=
  {| Config.Port := envInt "PORT" 8000;
     Config.InternalPort := envInt "INTERNAL_PORT" 9090;
     Config.RedisURL :=
       envStr "REDIS_URL" (envStr "REDISCLOUD_URL" "redis://localhost:6379");
     Config.HookToken := envStr "HOOK_TOKEN" "";
     Config.RegistryURL := envStr "REGISTRY_URL" "http://localhost:5000";
     Config.Hostname := envStr "HOSTNAME_OVERRIDE" "localhost";
     Config.DefaultTTL := envDuration "DEFAULT_TTL" Time.Hour;
     Config.MaxTTL := envDuration "MAX_TTL" (24 * Time.Hour);
     Config.ReapInterval := envDuration "REAP_INTERVAL" Time.Minute;
     Config.LogFormat := envStr "LOG_FORMAT" "json" |}.

End Main.

(** The handler and the runner that [serveCmd] and [recoverCmd] build from
    a configuration. *)
Definition hookHandler (cfg : Config.Config) : Hooks.Handler :=
  {| Hooks.hookToken := Config.HookToken cfg;
     Hooks.defaultTTL := Config.DefaultTTL cfg;
     Hooks.maxTTL := Config.MaxTTL cfg |}.

Definition recoverRunner (cfg : Config.Config) : Recover.Runner :=
  {| Recover.defaultTTL := Config.DefaultTTL cfg;
     Recover.maxTTL := Config.MaxTTL cfg |}.

End Main.

(** ** Fixtures of the examples *)

(** A store whose writes fail, and an authorized push event for [foo:1h]. *)
Definition failingStoreEnv : env :=
  {| now := 1700000000000000000;
     isInitializedErr := None;
     setInitializedErr := None;
     trackImageErr := fun _ => Some "dial tcp: connection refused";
     listImagesErr := None;
     listRepositories := Ok [];
     listTags := fun _ => Ok [];
     resolveDigest := fun _ _ => HeadNotFound;
     deleteManifest := fun _ _ => Ok 202 |}.

(** A store that works and a registry that resolves every tag and accepts
    every deletion. *)
Definition healthyEnv : env :=
  {| now := 1700000000000000000;
     isInitializedErr := None;
     setInitializedErr := None;
     trackImageErr := fun _ => None;
     listImagesErr := None;
     listRepositories := Ok ["app1"; "app2"];
     listTags := fun repo =>
       if String.eqb repo "app1" then Err "unexpected status 500"
       else Ok ["1h"; "latest"];
     resolveDigest := fun _ _ => HeadDigest "sha256:abc123";
     deleteManifest := fun _ _ => Ok 202 |}.

Definition emptyWorld : world :=
  {| images := ∅; initialized := false; lockHeld := false; calls := [] |}.

Definition pushRequest : Hooks.Request :=
  {| Hooks.Method := "POST";
     Hooks.Authorization := "Token tok";
     Hooks.Body := Ok {| Hooks.Events :=
       [ {| Hooks.Action := "push";
            Hooks.Target := {| Hooks.Repository := "foo"; Hooks.Tag := "1h" |} |} ] |} |}.

Definition tokHandler : Hooks.Handler :=
  {| Hooks.hookToken := "tok";
     Hooks.defaultTTL := 1 * Time.Hour;
     Hooks.maxTTL := 24 * Time.Hour |}.

(** A registry whose catalog page always links to itself. *)
Definition loopingTransport : Client.transport :=
  {| Client.newRequestErr := fun _ => None;
     Client.roundTrip := fun _ =>
       Ok {| Client.decoded := Ok ["app1"];
             Client.linkHeader := "</v2/_catalog?n=1000>; rel=next" |} |}.

(** * Properties *)

(** ** The clamper *)

Import TTL.

Ltac plain_term a :=
  lazymatch a with
  | context [if _ then _ else _] => fail
  | _ => idtac
  end.

Ltac clamp_cases :=
  unfold ClampTTL;
  repeat match goal with
  | |- context [?a <=? ?b] => plain_term a; destruct (Z.leb_spec a b)
  | |- context [?a >? ?b] =>
      plain_term a; rewrite (Z.gtb_ltb a b); destruct (Z.ltb_spec b a)
  end; try lia.

Section ClampFacts.

Lemma ClampTTL_nonpositive (d defaultTTL maxTTL : Z) :
  d <= 0 -> ClampTTL d defaultTTL maxTTL = defaultTTL.
Proof. intros. clamp_cases. Qed.

Lemma ClampTTL_positive (d defaultTTL maxTTL : Z) :
  0 < d -> ClampTTL d defaultTTL maxTTL = Z.min d maxTTL.
Proof. intros. clamp_cases. Qed.


Lemma Validate_ok_ttls (c : Config.Config) :
  Config.Validate c = None ->
  0 < Config.DefaultTTL c /\ Config.DefaultTTL c <= Config.MaxTTL c.
Proof.
  unfold Config.Validate.
  repeat match goal with
  | |- context [if String.eqb ?a ?b then _ else _] => destruct (String.eqb a b)
  end; try discriminate.
  destruct (Z.leb_spec (Config.DefaultTTL c) 0); [discriminate|].
  destruct (Z.leb_spec (Config.MaxTTL c) 0); [discriminate|].
  rewrite Z.gtb_ltb.
  destruct (Z.ltb_spec (Config.MaxTTL c) (Config.DefaultTTL c)); [discriminate|].
  intros _. lia.
Qed.

(** C3, as stated, fails: with [defaultTTL > maxTTL] an unparseable tag
    ([d = -1]) is given [defaultTTL], which exceeds [maxTTL]. *)
Lemma ClampTTL_default_above_max_counterexample :
  let d := -1 in
  let defaultTTL := 2 * Time.Hour in
  let maxTTL := 1 * Time.Hour in
  defaultTTL > maxTTL /\
  ClampTTL d defaultTTL maxTTL <> maxTTL /\
  ClampTTL d defaultTTL maxTTL > maxTTL.
Proof. vm_compute. repeat split; discriminate. Qed.

(** C3 (amended): a positive duration is clamped to [min d maxTTL], so it
    never exceeds [maxTTL] whatever [defaultTTL] is; a non-positive one is
    replaced by [defaultTTL] as it is; the result is within [maxTTL] for
    every [d] once [defaultTTL <= maxTTL], which is what a configuration
    accepted by [Validate] guarantees. *)
Theorem ClampTTL_max_bound (d defaultTTL maxTTL : Z) :
  (0 < d -> ClampTTL d defaultTTL maxTTL = Z.min d maxTTL
            /\ ClampTTL d defaultTTL maxTTL <= maxTTL)
  /\ (d <= 0 -> ClampTTL d defaultTTL maxTTL = defaultTTL)
  /\ (defaultTTL <= maxTTL -> ClampTTL d defaultTTL maxTTL <= maxTTL)
  /\ (forall c : Config.Config, Config.Validate c = None ->
        ClampTTL d (Config.DefaultTTL c) (Config.MaxTTL c) <= Config.MaxTTL c).
Proof.
  split; [|split; [|split]].
  - intros. split; clamp_cases.
  - apply ClampTTL_nonpositive.
  - intros. clamp_cases.
  - intros c Hc. destruct (Validate_ok_ttls c Hc). clamp_cases.
Qed.

(** C8, as stated, fails: when [defaultTTL > maxTTL] a second clamp cuts
    the default down to [maxTTL]. *)
Lemma ClampTTL_not_idempotent_counterexample :
  let d := -1 in
  let defaultTTL := 2 * Time.Hour in
  let maxTTL := 1 * Time.Hour in
  ClampTTL (ClampTTL d defaultTTL maxTTL) defaultTTL maxTTL
    <> ClampTTL d defaultTTL maxTTL.
Proof. vm_compute. discriminate. Qed.

(** C8 (amended): [ClampTTL] is idempotent in [d] whenever
    [defaultTTL <= maxTTL] and [0 < maxTTL], as every validated
    configuration has it. *)
Theorem ClampTTL_idempotent (d defaultTTL maxTTL : Z) :
  defaultTTL <= maxTTL -> 0 < maxTTL ->
  ClampTTL (ClampTTL d defaultTTL maxTTL) defaultTTL maxTTL
    = ClampTTL d defaultTTL maxTTL.
Proof. intros. clamp_cases. Qed.

Lemma ClampTTL_idempotent_witness :
  1 * Time.Hour <= 24 * Time.Hour /\ 0 < 24 * Time.Hour /\
  ClampTTL (ClampTTL (48 * Time.Hour) (1 * Time.Hour) (24 * Time.Hour))
           (1 * Time.Hour) (24 * Time.Hour)
    = ClampTTL (48 * Time.Hour) (1 * Time.Hour) (24 * Time.Hour).
Proof.
  split; [vm_compute; discriminate|].
  split; [reflexivity|].
  apply (ClampTTL_idempotent (48 * Time.Hour) (1 * Time.Hour) (24 * Time.Hour)).
  - vm_compute; discriminate.
  - reflexivity.
Defined.

End ClampFacts.

(** ** The parser *)

Section ParseFacts.

Lemma wrap_small (z : Z) : Int64.inRange z -> Int64.wrap z = z.
Proof.
  unfold Int64.inRange, Int64.wrap, Int64.MinInt64, Int64.MaxInt64. intros H.
  rewrite Z.mod_small; lia.
Qed.

Lemma isDigit_digitVal (c : ascii) : isDigit c = true -> 0 <= digitVal c <= 9.
Proof.
  unfold isDigit, digitVal. intros H.
  apply andb_prop in H as [H1 H2].
  apply N.leb_le in H1. apply N.leb_le in H2. lia.
Qed.

Lemma decimal_ge_acc (s : string) : forall acc,
  allDigits s = true -> 0 <= acc -> acc <= decimal acc s.
Proof.
  induction s as [|c r IH]; intros acc Hd Hacc; simpl in *; [lia|].
  apply andb_prop in Hd as [Hc Hr].
  pose proof (isDigit_digitVal c Hc).
  specialize (IH (10 * acc + digitVal c) Hr). lia.
Qed.

Lemma decimal_nonneg (s : string) : allDigits s = true -> 0 <= decimal 0 s.
Proof. intros H. apply (decimal_ge_acc s 0 H). lia. Qed.

Lemma Atoi_exact (s : string) :
  nonEmpty s = true -> allDigits s = true -> decimal 0 s <= Int64.MaxInt64 ->
  Atoi s = decimal 0 s.
Proof. unfold Atoi. intros -> -> H. simpl. lia. Qed.

Lemma nonEmpty_false (s : string) : nonEmpty s = false -> s = EmptyString.
Proof. destruct s; [reflexivity | discriminate]. Qed.

Lemma digitsPrefix_allDigits (s : string) : allDigits (fst (digitsPrefix s)) = true.
Proof.
  induction s as [|c r IH]; simpl; [reflexivity|].
  destruct (isDigit c) eqn:Hc; [|reflexivity].
  destruct (digitsPrefix r) as [d r']. simpl in *. now rewrite Hc, IH.
Qed.

Lemma optGroup_allDigits (u : ascii) (s : string) :
  allDigits (fst (optGroup u s)) = true.
Proof.
  unfold optGroup. pose proof (digitsPrefix_allDigits s) as H.
  destruct (digitsPrefix s) as [d r]. simpl in H.
  destruct d as [|c0 d]; [reflexivity|].
  destruct r as [|c r]; [reflexivity|].
  destruct (Ascii.eqb c u); [exact H | reflexivity].
Qed.

(** A successful match returns the tag and five captures of digits. *)
Lemma FindStringSubmatch_shape (tag : string) (matches : list string) :
  FindStringSubmatch tag = Some matches ->
  exists w d h m s, matches = [tag; w; d; h; m; s] /\
    Forall (fun c => allDigits c = true) [w; d; h; m; s].
Proof.
  unfold FindStringSubmatch.
  pose proof (optGroup_allDigits "w" tag) as Hw.
  destruct (optGroup "w" tag) as [w s1].
  pose proof (optGroup_allDigits "d" s1) as Hd.
  destruct (optGroup "d" s1) as [d s2].
  pose proof (optGroup_allDigits "h" s2) as Hh.
  destruct (optGroup "h" s2) as [h s3].
  pose proof (optGroup_allDigits "m" s3) as Hm.
  destruct (optGroup "m" s3) as [m s4].
  pose proof (optGroup_allDigits "s" s4) as Hs.
  destruct (optGroup "s" s4) as [s s5].
  destruct s5; [|discriminate].
  intros [= <-]. exists w, d, h, m, s. split; [reflexivity|].
  repeat constructor; assumption.
Qed.

(** *** The matcher agrees with the pattern *)

Lemma append_assoc (a b c : string) : (a +:+ b) +:+ c = a +:+ (b +:+ c).
Proof.
  induction a as [|x a IH]; [reflexivity|].
  change (String x ((a +:+ b) +:+ c) = String x (a +:+ (b +:+ c))). now rewrite IH.
Qed.

Lemma digitsPrefix_append (s : string) :
  s = fst (digitsPrefix s) +:+ snd (digitsPrefix s).
Proof.
  induction s as [|c r IH]; simpl; [reflexivity|].
  destruct (isDigit c); [|reflexivity].
  destruct (digitsPrefix r) as [d r']. simpl in *.
  change (String c r = String c (d +:+ r')). now rewrite IH at 1.
Qed.

Lemma digitsPrefix_stop (d : string) (c : ascii) (r : string) :
  allDigits d = true -> isDigit c = false ->
  digitsPrefix (d +:+ String c r) = (d, String c r).
Proof.
  intros Hd Hc. induction d as [|x d IH].
  - change (digitsPrefix (String c r) = (EmptyString, String c r)).
    simpl. now rewrite Hc.
  - simpl in Hd. apply andb_prop in Hd as [Hx Hd].
    change (digitsPrefix (String x (d +:+ String c r)) = (String x d, String c r)).
    simpl. rewrite Hx, (IH Hd). reflexivity.
Qed.

Lemma optGroup_sound (u : ascii) (s cap rest : string) :
  optGroup u s = (cap, rest) ->
  exists text, s = text +:+ rest /\ group u cap text.
Proof.
  unfold optGroup. pose proof (digitsPrefix_append s) as Happ.
  pose proof (digitsPrefix_allDigits s) as Hall.
  destruct (digitsPrefix s) as [d r]. simpl in Happ, Hall.
  assert (Habs : (EmptyString, s) = (cap, rest) ->
    exists text, s = text +:+ rest /\ group u cap text).
  { intros [= <- <-]. exists EmptyString. split; [reflexivity|constructor]. }
  destruct d as [|c0 d]; [exact Habs|].
  destruct r as [|c r]; [exact Habs|].
  destruct (Ascii.eqb_spec c u) as [->|_]; [|exact Habs].
  intros [= <- <-]. exists (String c0 d +:+ String u EmptyString).
  split.
  - rewrite append_assoc. exact Happ.
  - constructor; [discriminate | exact Hall].
Qed.

(** A text matched by groups is empty or starts with digits and one of the
    unit letters. *)
Lemma groups_head (us : list ascii) (caps : list string) (s : string) :
  groups us caps s ->
  s = EmptyString \/
  exists d u r, s = d +:+ String u r /\ d <> EmptyString /\ allDigits d = true /\ In u us.
Proof.
  induction 1 as [|u us cap caps text rest Hg _ IH]; [now left|].
  destruct Hg as [|d Hne Hd].
  - destruct IH as [->|(d & u' & r & -> & Hne & Hd & Hin)]; [now left|].
    right. exists d, u', r. repeat split; try assumption. now right.
  - right. exists d, u, rest. rewrite append_assoc.
    repeat split; try assumption. now left.
Qed.

Lemma optGroup_present (u : ascii) (d rest : string) :
  d <> EmptyString -> allDigits d = true -> isDigit u = false ->
  optGroup u ((d +:+ String u EmptyString) +:+ rest) = (d, rest).
Proof.
  intros Hne Hd Hu. unfold optGroup. rewrite append_assoc.
  change (String u EmptyString +:+ rest) with (String u rest).
  rewrite (digitsPrefix_stop d u rest Hd Hu).
  destruct d; [contradiction|]. now rewrite Ascii.eqb_refl.
Qed.

Lemma optGroup_absent (u : ascii) (us : list ascii) (caps : list string) (s : string) :
  groups us caps s -> ~ In u us -> Forall (fun v => isDigit v = false) us ->
  optGroup u s = (EmptyString, s).
Proof.
  intros Hg Hnot Hnd.
  destruct (groups_head us caps s Hg) as [->|(d & v & r & -> & Hne & Hd & Hin)];
    [reflexivity|].
  unfold optGroup.
  rewrite (digitsPrefix_stop d v r Hd) by (rewrite List.Forall_forall in Hnd; auto).
  destruct d; [contradiction|].
  destruct (Ascii.eqb_spec v u) as [->|_]; [contradiction|reflexivity].
Qed.

Lemma FindStringSubmatch_matchGroups (tag : string) :
  FindStringSubmatch tag = option_map (cons tag) (matchGroups units tag).
Proof.
  unfold FindStringSubmatch, units. simpl.
  destruct (optGroup "w" tag) as [w s1].
  destruct (optGroup "d" s1) as [d s2].
  destruct (optGroup "h" s2) as [h s3].
  destruct (optGroup "m" s3) as [m s4].
  destruct (optGroup "s" s4) as [s s5].
  destruct s5; reflexivity.
Qed.

Lemma matchGroups_sound (us : list ascii) : forall s caps,
  matchGroups us s = Some caps -> groups us caps s.
Proof.
  induction us as [|u us IH]; intros s caps; simpl.
  - destruct s; [|discriminate]. intros [= <-]. constructor.
  - destruct (optGroup u s) as [cap rest] eqn:Hg.
    destruct (matchGroups us rest) as [caps'|] eqn:Hm; [|discriminate].
    intros [= <-].
    destruct (optGroup_sound u s cap rest Hg) as (text & -> & Hgroup).
    constructor; [exact Hgroup | now apply IH].
Qed.

Lemma matchGroups_complete (us : list ascii) (caps : list string) (s : string) :
  groups us caps s ->
  List.NoDup us -> Forall (fun v => isDigit v = false) us ->
  matchGroups us s = Some caps.
Proof.
  induction 1 as [|u us cap caps text rest Hg Hgs IH]; intros Hnd Hdig;
    [reflexivity|].
  inversion_clear Hnd as [|? ? Hnot Hnd'].
  inversion_clear Hdig as [|? ? Hu Hdig'].
  simpl. destruct Hg as [|d Hne Hd].
  - change (EmptyString +:+ rest) with rest.
    rewrite (optGroup_absent u us caps rest Hgs Hnot Hdig').
    now rewrite (IH Hnd' Hdig').
  - rewrite (optGroup_present u d rest Hne Hd Hu).
    now rewrite (IH Hnd' Hdig').
Qed.

(** [FindStringSubmatch] returns exactly the matches of the pattern: the
    captures of a tag that matches are unique, and [nil] is returned exactly
    for the tags that do not match. *)
Lemma FindStringSubmatch_patternMatch (tag : string) (caps : list string) :
  FindStringSubmatch tag = Some (tag :: caps) <-> patternMatch tag caps.
Proof.
  rewrite FindStringSubmatch_matchGroups. unfold patternMatch. split.
  - destruct (matchGroups units tag) as [caps'|] eqn:Hm; [|discriminate].
    intros [= <-]. now apply matchGroups_sound.
  - intros H. rewrite (matchGroups_complete units caps tag H); [reflexivity| |].
    + unfold units. repeat constructor; simpl; intuition discriminate.
    + unfold units. repeat constructor.
Qed.

Lemma FindStringSubmatch_nil (tag : string) :
  FindStringSubmatch tag = None <-> forall caps, ~ patternMatch tag caps.
Proof.
  split.
  - intros Hn caps Hm. apply FindStringSubmatch_patternMatch in Hm. congruence.
  - intros Hno. destruct (FindStringSubmatch tag) as [matches|] eqn:Hm; [|reflexivity].
    destruct (FindStringSubmatch_shape tag matches Hm) as (w & d & h & m & s & -> & _).
    apply FindStringSubmatch_patternMatch in Hm. now apply Hno in Hm.
Qed.

Lemma addComponent_exact (matches : list string) (i : nat)
    (scale : Z -> Z) (unit d : Z) :
  allDigits (index matches i) = true ->
  0 < unit -> 0 <= d ->
  (forall n, 0 <= n -> n * unit <= Int64.MaxInt64 -> scale n = n * unit) ->
  d + decimal 0 (index matches i) * unit <= Int64.MaxInt64 ->
  addComponent matches i scale d = d + decimal 0 (index matches i) * unit.
Proof.
  intros Hd Hu Hacc Hscale Hfit. unfold addComponent.
  pose proof (decimal_nonneg _ Hd) as Hn.
  destruct (nonEmpty (index matches i)) eqn:Hne.
  - assert (decimal 0 (index matches i) <= Int64.MaxInt64) by nia.
    rewrite Atoi_exact by assumption.
    rewrite Hscale by (try assumption; nia).
    unfold Int64.add. apply wrap_small.
    unfold Int64.inRange, Int64.MinInt64. split; [nia | assumption].
  - apply nonEmpty_false in Hne. rewrite Hne. simpl. lia.
Qed.

Ltac scale_exact :=
  intros n Hn Hfit;
  unfold weeks, days, hours, minutes, seconds, Int64.mul;
  unfold Int64.MaxInt64, Time.Hour, Time.Minute, Time.Second in *;
  repeat match goal with
  | |- context [Int64.wrap ?z] =>
      lazymatch z with context [Int64.wrap _] => fail | _ => idtac end;
      rewrite (wrap_small z)
        by (unfold Int64.inRange, Int64.MinInt64, Int64.MaxInt64; lia)
  end;
  lia.

Lemma weeks_exact n :
  0 <= n -> n * (7 * 24 * Time.Hour) <= Int64.MaxInt64 ->
  weeks n = n * (7 * 24 * Time.Hour).
Proof. revert n. scale_exact. Qed.

Lemma days_exact n :
  0 <= n -> n * (24 * Time.Hour) <= Int64.MaxInt64 -> days n = n * (24 * Time.Hour).
Proof. revert n. scale_exact. Qed.

Lemma hours_exact n :
  0 <= n -> n * Time.Hour <= Int64.MaxInt64 -> hours n = n * Time.Hour.
Proof. revert n. scale_exact. Qed.

Lemma minutes_exact n :
  0 <= n -> n * Time.Minute <= Int64.MaxInt64 -> minutes n = n * Time.Minute.
Proof. revert n. scale_exact. Qed.

Lemma seconds_exact n :
  0 <= n -> n * Time.Second <= Int64.MaxInt64 -> seconds n = n * Time.Second.
Proof. revert n. scale_exact. Qed.

(** When the exact duration of a match fits in 64 bits, the five guarded
    additions of [ParseTTL] compute it. *)
Lemma components_exact (matches : list string) :
  Forall (fun c => allDigits c = true) (tl matches) ->
  length matches = 6%nat ->
  exactTTL matches <= Int64.MaxInt64 ->
  addComponent matches 5 seconds
    (addComponent matches 4 minutes
      (addComponent matches 3 hours
        (addComponent matches 2 days
          (addComponent matches 1 weeks 0)))) = exactTTL matches.
Proof.
  intros Hall Hlen Hfit.
  destruct matches as [|t [|w [|d [|h [|m [|s [|]]]]]]]; try discriminate.
  simpl in Hall.
  inversion_clear Hall as [|? ? Hw Hall1].
  inversion_clear Hall1 as [|? ? Hd Hall2].
  inversion_clear Hall2 as [|? ? Hh Hall3].
  inversion_clear Hall3 as [|? ? Hm Hall4].
  inversion_clear Hall4 as [|? ? Hs _].
  unfold exactTTL in *. unfold index in *. simpl nth in *.
  pose proof (decimal_nonneg _ Hw). pose proof (decimal_nonneg _ Hd).
  pose proof (decimal_nonneg _ Hh). pose proof (decimal_nonneg _ Hm).
  pose proof (decimal_nonneg _ Hs).
  assert (0 < Time.Hour /\ 0 < Time.Minute /\ 0 < Time.Second) as (HH & HM & HS)
    by (repeat split; reflexivity).
  rewrite (addComponent_exact _ 1 weeks (7 * 24 * Time.Hour) 0);
    try assumption; try lia; try (apply weeks_exact); unfold index; simpl nth; try nia.
  rewrite (addComponent_exact _ 2 days (24 * Time.Hour));
    try assumption; try lia; try (apply days_exact); unfold index; simpl nth; try nia.
  rewrite (addComponent_exact _ 3 hours Time.Hour);
    try assumption; try lia; try (apply hours_exact); unfold index; simpl nth; try nia.
  rewrite (addComponent_exact _ 4 minutes Time.Minute);
    try assumption; try lia; try (apply minutes_exact); unfold index; simpl nth; try nia.
  rewrite (addComponent_exact _ 5 seconds Time.Second);
    try assumption; try lia; try (apply seconds_exact); unfold index; simpl nth; try nia.
Qed.

Lemma exactTTL_zero_iff (matches : list string) :
  Forall (fun c => allDigits c = true) (tl matches) ->
  length matches = 6%nat ->
  (exactTTL matches = 0 <-> Forall (fun c => decimal 0 c = 0) (tl matches))
  /\ 0 <= exactTTL matches.
Proof.
  intros Hall Hlen.
  destruct matches as [|t [|w [|d [|h [|m [|s [|]]]]]]]; try discriminate.
  simpl in Hall.
  inversion_clear Hall as [|? ? Hw Hall1].
  inversion_clear Hall1 as [|? ? Hd Hall2].
  inversion_clear Hall2 as [|? ? Hh Hall3].
  inversion_clear Hall3 as [|? ? Hm Hall4].
  inversion_clear Hall4 as [|? ? Hs _].
  unfold exactTTL, index. simpl nth. simpl tl.
  pose proof (decimal_nonneg _ Hw). pose proof (decimal_nonneg _ Hd).
  pose proof (decimal_nonneg _ Hh). pose proof (decimal_nonneg _ Hm).
  pose proof (decimal_nonneg _ Hs).
  unfold Time.Hour, Time.Minute, Time.Second.
  split; [split|]; [| |lia].
  - intros Hz. repeat constructor; lia.
  - intros Hz.
    inversion_clear Hz as [|? ? Zw Hz1].
    inversion_clear Hz1 as [|? ? Zd Hz2].
    inversion_clear Hz2 as [|? ? Zh Hz3].
    inversion_clear Hz3 as [|? ? Zm Hz4].
    inversion_clear Hz4 as [|? ? Zs _].
    lia.
Qed.

(** C4, as stated, fails: the grammar accepts magnitudes that are all
    zero, and then the parse result is [0], neither [-1] nor positive. *)
Lemma ParseTTL_zero_counterexample :
  ParseTTL "0s" <> -1 /\ ~ 0 < ParseTTL "0s".
Proof. vm_compute. split; [discriminate | intros H; discriminate H]. Qed.

(** C4 (amended): [ParseTTL] returns [-1] unless the tag matches the
    pattern with at least one component; for such a tag, when its exact
    duration fits in 64 bits, the result is that duration: never negative,
    and zero exactly when every magnitude in the tag is zero. *)
Theorem ParseTTL_unparseable_or_nonnegative (tag : string) :
  ParseTTL tag = -1 \/
  exists matches,
    FindStringSubmatch tag = Some matches /\
    existsb nonEmpty (tl matches) = true /\
    (exactTTL matches <= Int64.MaxInt64 ->
       ParseTTL tag = exactTTL matches /\
       0 <= ParseTTL tag /\
       (ParseTTL tag = 0 <-> Forall (fun c => decimal 0 c = 0) (tl matches))).
Proof.
  unfold ParseTTL.
  destruct (String.eqb tag EmptyString); [left; reflexivity|].
  destruct (FindStringSubmatch tag) as [matches|] eqn:Hm; [|left; reflexivity].
  destruct (existsb nonEmpty (tl matches)) eqn:Hv; [|left; reflexivity].
  right. exists matches. split; [reflexivity|]. split; [exact Hv|].
  intros Hfit. cbv zeta. simpl negb. cbv iota.
  destruct (FindStringSubmatch_shape tag matches Hm) as (w & d & h & m & s & -> & Hall).
  rewrite components_exact; [|exact Hall|reflexivity|exact Hfit].
  destruct (exactTTL_zero_iff [tag; w; d; h; m; s] Hall eq_refl) as [Hz Hn].
  split; [reflexivity|]. split; [exact Hn | exact Hz].
Qed.

(** C9: parsing and then clamping, with a positive default and a maximum
    of at least 252 hours, gives the listed durations; the four tags that
    are not durations get the default. *)
Theorem ParseTTL_ClampTTL_examples (defaultTTL maxTTL : Z) :
  0 < defaultTTL -> 252 * Time.Hour <= maxTTL ->
  ClampTTL (ParseTTL "5m") defaultTTL maxTTL = 5 * Time.Minute /\
  ClampTTL (ParseTTL "1h") defaultTTL maxTTL = 1 * Time.Hour /\
  ClampTTL (ParseTTL "1h30m") defaultTTL maxTTL = 90 * Time.Minute /\
  ClampTTL (ParseTTL "2d") defaultTTL maxTTL = 48 * Time.Hour /\
  ClampTTL (ParseTTL "1w") defaultTTL maxTTL = 168 * Time.Hour /\
  ClampTTL (ParseTTL "1w3d12h") defaultTTL maxTTL = 252 * Time.Hour /\
  (ParseTTL "latest" = -1 /\ ClampTTL (ParseTTL "latest") defaultTTL maxTTL = defaultTTL) /\
  (ParseTTL "" = -1 /\ ClampTTL (ParseTTL "") defaultTTL maxTTL = defaultTTL) /\
  (ParseTTL "v1.0.0" = -1 /\ ClampTTL (ParseTTL "v1.0.0") defaultTTL maxTTL = defaultTTL) /\
  (ParseTTL "sha-abc123" = -1 /\
   ClampTTL (ParseTTL "sha-abc123") defaultTTL maxTTL = defaultTTL).
Proof.
  intros Hdef Hmax.
  change (252 * Time.Hour) with 907200000000000 in Hmax.
  repeat match goal with
  | |- context [ParseTTL ?t] =>
      let v := eval vm_compute in (ParseTTL t) in
      change (ParseTTL t) with v
  end.
  repeat match goal with
  | |- context [?n * ?u] =>
      let v := eval vm_compute in (n * u) in change (n * u) with v
  end.
  repeat split; clamp_cases.
Qed.

Lemma ParseTTL_ClampTTL_examples_witness :
  0 < 1 * Time.Hour /\ 252 * Time.Hour <= 720 * Time.Hour
  /\ ClampTTL (ParseTTL "1w3d12h") (1 * Time.Hour) (720 * Time.Hour) = 252 * Time.Hour
  /\ ClampTTL (ParseTTL "latest") (1 * Time.Hour) (720 * Time.Hour) = 1 * Time.Hour.
Proof.
  assert (H1 : 0 < 1 * Time.Hour) by reflexivity.
  assert (H2 : 252 * Time.Hour <= 720 * Time.Hour) by (vm_compute; discriminate).
  pose proof (ParseTTL_ClampTTL_examples (1 * Time.Hour) (720 * Time.Hour) H1 H2)
    as (_ & _ & _ & _ & _ & H & (_ & L) & _).
  split; [exact H1|]. split; [exact H2|]. split; [exact H | exact L].
Defined.

End ParseFacts.

(** ** Loops over the world *)

Section LoopFacts.
Context {A : Type}.

(** A property that every iteration preserves holds after the loop. *)
Lemma forEach_preserves (P : world -> Prop) (f : A -> M unit) (l : list A) :
  (forall x w, x ∈ l -> P w -> P (snd (f x w))) ->
  forall w, P w -> P (snd (forEach f l w)).
Proof.
  induction l as [|x rest IH]; intros Hf w Hw; simpl; [exact Hw|].
  unfold bind. destruct (f x w) as [u w1] eqn:Hx.
  apply IH.
  - intros y w2 Hy. apply Hf. apply elem_of_cons. now right.
  - assert (Hin : x ∈ x :: rest) by (apply elem_of_cons; now left).
    specialize (Hf x w Hin Hw). now rewrite Hx in Hf.
Qed.

(** When each iteration appends the calls [g x], the loop appends them all,
    in order. *)
Lemma forEach_calls (f : A -> M unit) (g : A -> list event) (l : list A) :
  (forall x w, calls (snd (f x w)) = calls w ++ g x) ->
  forall w, calls (snd (forEach f l w)) = calls w ++ flat_map g l.
Proof.
  intros Hf. induction l as [|x rest IH]; intros w; simpl.
  - now rewrite app_nil_r.
  - unfold bind. specialize (Hf x w). destruct (f x w) as [u w1]. simpl in Hf.
    rewrite IH, Hf. now rewrite <- app_assoc.
Qed.

(** What one iteration establishes and the others keep holds at the end. *)
Lemma forEach_establishes (Q : world -> Prop) (f : A -> M unit) (l : list A) (x : A) :
  x ∈ l ->
  (forall w, Q (snd (f x w))) ->
  (forall y w, Q w -> Q (snd (f y w))) ->
  forall w, Q (snd (forEach f l w)).
Proof.
  intros Hx Hest Hkeep. induction l as [|y rest IH]; intros w.
  - now apply elem_of_nil in Hx.
  - simpl. unfold bind. destruct (f y w) as [u w1] eqn:Hy.
    apply elem_of_cons in Hx as [->|Hx].
    + apply forEach_preserves; [intros; now apply Hkeep|].
      specialize (Hest w). now rewrite Hy in Hest.
    + now apply IH.
Qed.

End LoopFacts.

(** ** The tracking store *)

Section StoreFacts.
Context (E : env).


Lemma TrackImage_calls img expiresAt w :
  calls (snd (Store.TrackImage E img expiresAt w))
    = calls w ++ [EvTrackImage img expiresAt].
Proof.
  unfold Store.TrackImage, bind, call, modify, ret.
  destruct (trackImageErr E img); reflexivity.
Qed.

Lemma TrackImage_images img expiresAt w :
  images (snd (Store.TrackImage E img expiresAt w)) =
    match trackImageErr E img with
    | Some _ => images w
    | None => <[img := {| created := Time.UnixMilli (now E);
                          expires := Time.UnixMilli expiresAt |}]> (images w)
    end.
Proof.
  unfold Store.TrackImage, bind, call, modify, ret.
  destruct (trackImageErr E img); reflexivity.
Qed.

Lemma TrackImage_flags img expiresAt w :
  initialized (snd (Store.TrackImage E img expiresAt w)) = initialized w /\
  lockHeld (snd (Store.TrackImage E img expiresAt w)) = lockHeld w.
Proof.
  unfold Store.TrackImage, bind, call, modify, ret.
  destruct (trackImageErr E img); split; reflexivity.
Qed.

End StoreFacts.

(** ** The recovery runner *)

Section RecoverFacts.
Context (E : env) (r : Recover.Runner).

Lemma recoverTag_calls repo tag w :
  calls (snd (Recover.recoverTag E r repo tag w))
    = calls w ++ [Recover.trackCall E r repo tag].
Proof.
  unfold Recover.recoverTag, bind, ret.
  pose proof (TrackImage_calls E (imageRef repo tag)
    (Time.Add (now E) (ClampTTL (ParseTTL tag) (Recover.defaultTTL r) (Recover.maxTTL r))) w) as H.
  destruct (Store.TrackImage E _ _ w) as [e w1]. exact H.
Qed.

Lemma recoverTag_images repo tag w :
  images (snd (Recover.recoverTag E r repo tag w)) =
    match trackImageErr E (imageRef repo tag) with
    | Some _ => images w
    | None =>
        <[imageRef repo tag :=
            {| created := Time.UnixMilli (now E);
               expires := Time.UnixMilli (Time.Add (now E)
                 (ClampTTL (ParseTTL tag) (Recover.defaultTTL r) (Recover.maxTTL r))) |}]>
          (images w)
    end.
Proof.
  unfold Recover.recoverTag, bind, ret.
  pose proof (TrackImage_images E (imageRef repo tag)
    (Time.Add (now E) (ClampTTL (ParseTTL tag) (Recover.defaultTTL r) (Recover.maxTTL r))) w) as H.
  destruct (Store.TrackImage E _ _ w) as [e w1]. exact H.
Qed.

Lemma recoverTag_flags repo tag w :
  initialized (snd (Recover.recoverTag E r repo tag w)) = initialized w /\
  lockHeld (snd (Recover.recoverTag E r repo tag w)) = lockHeld w.
Proof.
  unfold Recover.recoverTag, bind, ret.
  pose proof (TrackImage_flags E (imageRef repo tag)
    (Time.Add (now E) (ClampTTL (ParseTTL tag) (Recover.defaultTTL r) (Recover.maxTTL r))) w) as H.
  destruct (Store.TrackImage E _ _ w) as [e w1]. exact H.
Qed.

(** A tracked image stays tracked through one more [TrackImage]. *)
Lemma recoverTag_keeps_tracked repo tag img w :
  is_Some (images w !! img) ->
  is_Some (images (snd (Recover.recoverTag E r repo tag w)) !! img).
Proof.
  intros H. rewrite recoverTag_images.
  destruct (trackImageErr E (imageRef repo tag)); [exact H|].
  destruct (decide (imageRef repo tag = img)) as [->|Hne].
  - rewrite lookup_insert_eq. eauto.
  - now rewrite lookup_insert_ne.
Qed.

(** An image whose [TrackImage] fails is left as it was. *)
Lemma recoverTag_failed_untouched repo tag img w :
  trackImageErr E img <> None ->
  images (snd (Recover.recoverTag E r repo tag w)) !! img = images w !! img.
Proof.
  intros H. rewrite recoverTag_images.
  destruct (trackImageErr E (imageRef repo tag)) eqn:He; [reflexivity|].
  rewrite lookup_insert_ne; [reflexivity|]. intros Heq. subst img. now apply H.
Qed.

Lemma recoverRepo_calls repo w :
  calls (snd (Recover.recoverRepo E r repo w)) = calls w ++ Recover.repoCalls E r repo.
Proof.
  unfold Recover.recoverRepo, Recover.repoCalls, Registry.ListTags, bind, call, ret.
  destruct (listTags E repo) as [tags|e]; simpl; [|reflexivity].
  rewrite (forEach_calls _ (fun tag => [Recover.trackCall E r repo tag])).
  - simpl. rewrite <- app_assoc. simpl.
    assert (Hmap : flat_map (fun tag => [Recover.trackCall E r repo tag]) tags
                   = map (Recover.trackCall E r repo) tags).
    { induction tags as [|t ts IH]; simpl; [reflexivity | now rewrite IH]. }
    now rewrite Hmap.
  - intros tag w1. apply recoverTag_calls.
Qed.

Lemma recoverRepo_preserves (P : world -> Prop) repo :
  (forall c w, P w -> P (logCall c w)) ->
  (forall tag w, P w -> P (snd (Recover.recoverTag E r repo tag w))) ->
  forall w, P w -> P (snd (Recover.recoverRepo E r repo w)).
Proof.
  intros Hlog Hstep w Hw.
  unfold Recover.recoverRepo, Registry.ListTags, bind, call, ret.
  destruct (listTags E repo) as [tags|e]; simpl; [|now apply Hlog].
  apply forEach_preserves; [|now apply Hlog].
  intros tag w1 _. apply Hstep.
Qed.

Lemma recoverRepo_keeps_tracked repo img w :
  is_Some (images w !! img) ->
  is_Some (images (snd (Recover.recoverRepo E r repo w)) !! img).
Proof.
  apply (recoverRepo_preserves (fun w => is_Some (images w !! img))).
  - intros c w1 H. exact H.
  - intros tag w1. apply recoverTag_keeps_tracked.
Qed.

Lemma recoverRepo_tracks repo tags tag w :
  listTags E repo = Ok tags -> tag ∈ tags ->
  trackImageErr E (imageRef repo tag) = None ->
  is_Some (images (snd (Recover.recoverRepo E r repo w)) !! imageRef repo tag).
Proof.
  intros Htags Hin Hok.
  unfold Recover.recoverRepo, Registry.ListTags, bind, call, ret.
  rewrite Htags. simpl.
  apply (forEach_establishes
    (fun w => is_Some (images w !! imageRef repo tag)) _ tags tag Hin).
  - intros w1. rewrite recoverTag_images, Hok, lookup_insert_eq. eauto.
  - intros t w1. apply recoverTag_keeps_tracked.
Qed.

Lemma recoverRepo_flags repo w :
  initialized (snd (Recover.recoverRepo E r repo w)) = initialized w.
Proof.
  apply (recoverRepo_preserves (fun w1 => initialized w1 = initialized w));
    [intros c w1 H; exact H | | reflexivity].
  intros tag w1 H. now rewrite (proj1 (recoverTag_flags repo tag w1)).
Qed.

Lemma recoverRepo_failed_untouched repo img w :
  trackImageErr E img <> None ->
  images (snd (Recover.recoverRepo E r repo w)) !! img = images w !! img.
Proof.
  intros Hfail.
  apply (recoverRepo_preserves (fun w1 => images w1 !! img = images w !! img));
    [intros c w1 H; exact H | | reflexivity].
  intros tag w1 H. now rewrite recoverTag_failed_untouched.
Qed.

(** What a run leaves behind when the catalog could be listed. *)
Lemma Run_listed repos w :
  listRepositories E = Ok repos ->
  fst (Recover.Run E r w) = None /\
  snd (Recover.Run E r w)
    = snd (forEach (Recover.recoverRepo E r) repos (logCall EvListRepositories w)).
Proof.
  intros H. unfold Recover.Run, Registry.ListRepositories, bind, call, ret.
  rewrite H. simpl.
  destruct (forEach (Recover.recoverRepo E r) repos (logCall EvListRepositories w)).
  split; reflexivity.
Qed.

Lemma Run_not_listed e w :
  listRepositories E = Err e ->
  Recover.Run E r w
    = (Some (wrapError "listing repositories" e), logCall EvListRepositories w).
Proof.
  intros H. unfold Recover.Run, Registry.ListRepositories, bind, call, ret.
  now rewrite H.
Qed.

Lemma Run_calls repos w :
  listRepositories E = Ok repos ->
  calls (snd (Recover.Run E r w))
    = calls w ++ EvListRepositories :: flat_map (Recover.repoCalls E r) repos.
Proof.
  intros Hrepos. rewrite (proj2 (Run_listed repos w Hrepos)).
  rewrite (forEach_calls _ (Recover.repoCalls E r)).
  - simpl. now rewrite <- app_assoc.
  - intros repo w1. apply recoverRepo_calls.
Qed.

(** C6: a failed top-level listing ends the run with an error after that
    one call, the store untouched.  Otherwise the run returns no error and
    its calls are, in order, the tag listing of every repository of the
    catalog, each followed by one [TrackImage] per tag when its listing
    succeeded and by nothing when it failed; every image whose
    [TrackImage] succeeds ends up tracked, and an image whose [TrackImage]
    fails is left as it was. *)
Theorem Run_failure_isolation (w : world) :
  (forall e, listRepositories E = Err e ->
     Recover.Run E r w
       = (Some (wrapError "listing repositories" e), logCall EvListRepositories w)
     /\ images (snd (Recover.Run E r w)) = images w)
  /\ (forall repos, listRepositories E = Ok repos ->
       let w' := snd (Recover.Run E r w) in
       fst (Recover.Run E r w) = None
       /\ calls w' = calls w ++ EvListRepositories
                       :: flat_map (Recover.repoCalls E r) repos
       /\ (forall repo, repo ∈ repos -> EvListTags repo ∈ calls w')
       /\ (forall repo tags tag,
             repo ∈ repos -> listTags E repo = Ok tags -> tag ∈ tags ->
             Recover.trackCall E r repo tag ∈ calls w'
             /\ (trackImageErr E (imageRef repo tag) = None ->
                 is_Some (images w' !! imageRef repo tag)))
       /\ (forall img, trackImageErr E img <> None ->
             images w' !! img = images w !! img)).
Proof.
  split.
  - intros e He. rewrite (Run_not_listed e w He). split; reflexivity.
  - intros repos Hrepos. cbv zeta.
    destruct (Run_listed repos w Hrepos) as [Hres Hw].
    pose proof (Run_calls repos w Hrepos) as Hcalls.
    rewrite Hw in Hcalls |- *.
    split; [exact Hres|]. split; [exact Hcalls|].
    assert (Hin : forall repo ev, repo ∈ repos -> ev ∈ Recover.repoCalls E r repo ->
      ev ∈ calls (snd (forEach (Recover.recoverRepo E r) repos
                         (logCall EvListRepositories w)))).
    { intros repo ev Hrepo Hev. rewrite Hcalls.
      apply elem_of_app. right. apply elem_of_cons. right.
      apply list_elem_of_In, in_flat_map. exists repo.
      split; now apply list_elem_of_In. }
    split; [|split].
    + intros repo Hrepo. apply (Hin repo _ Hrepo).
      unfold Recover.repoCalls. apply elem_of_cons. now left.
    + intros repo tags tag Hrepo Htags Htag. split.
      * apply (Hin repo _ Hrepo). unfold Recover.repoCalls. rewrite Htags.
        apply elem_of_cons. right.
        apply list_elem_of_In, in_map. now apply list_elem_of_In.
      * intros Hok.
        apply (forEach_establishes
          (fun w1 => is_Some (images w1 !! imageRef repo tag)) _ repos repo Hrepo).
        -- intros w1. now apply (recoverRepo_tracks repo tags).
        -- intros y w1. apply recoverRepo_keeps_tracked.
    + intros img Hfail.
      apply (forEach_preserves (fun w1 => images w1 !! img = images w !! img));
        [|reflexivity].
      intros repo w1 _ H. now rewrite recoverRepo_failed_untouched.
Qed.

Lemma Run_keeps_initialized w :
  initialized (snd (Recover.Run E r w)) = initialized w.
Proof.
  destruct (listRepositories E) as [repos|e] eqn:H.
  - rewrite (proj2 (Run_listed repos w H)).
    apply (forEach_preserves (fun w1 => initialized w1 = initialized w));
      [|reflexivity].
    intros repo w1 _ Hw1. now rewrite recoverRepo_flags.
  - now rewrite (Run_not_listed e w H).
Qed.

(** C5: [RunIfNeeded] does nothing but the check when the store is
    initialized; returns the check's error, wrapped, and does nothing else
    when the check fails; and otherwise reconciles: when the catalog cannot
    be listed it returns that error and the marker is neither written nor
    set, and when the run succeeds the marker is written last, after all
    the calls of the run. *)
Theorem RunIfNeeded_cases (w : world) :
  (isInitializedErr E = None -> initialized w = true ->
     Recover.RunIfNeeded E r w = (None, logCall EvIsInitialized w))
  /\ (forall e, isInitializedErr E = Some e ->
     Recover.RunIfNeeded E r w
       = (Some (wrapError "checking initialization state" e),
          logCall EvIsInitialized w))
  /\ (isInitializedErr E = None -> initialized w = false ->
      (forall e, listRepositories E = Err e ->
         Recover.RunIfNeeded E r w
           = (Some (wrapError "listing repositories" e),
              logCall EvListRepositories (logCall EvIsInitialized w)))
      /\ (forall repos, listRepositories E = Ok repos ->
           let w' := snd (Recover.RunIfNeeded E r w) in
           calls w' = calls w ++ EvIsInitialized :: EvListRepositories
                        :: flat_map (Recover.repoCalls E r) repos
                        ++ [EvSetInitialized]
           /\ images w' = images (snd (Recover.Run E r (logCall EvIsInitialized w)))
           /\ (setInitializedErr E = None ->
                 fst (Recover.RunIfNeeded E r w) = None /\ initialized w' = true)
           /\ (forall e, setInitializedErr E = Some e ->
                 fst (Recover.RunIfNeeded E r w)
                   = Some (wrapError "setting initialized flag" e)
                 /\ initialized w' = false))).
Proof.
  split; [|split].
  - intros Hc Hi. unfold Recover.RunIfNeeded, Store.IsInitialized, bind, call, get, ret.
    rewrite Hc. simpl. now rewrite Hi.
  - intros e Hc. unfold Recover.RunIfNeeded, Store.IsInitialized, bind, call, get, ret.
    now rewrite Hc.
  - intros Hc Hi.
    assert (Hunfold : Recover.RunIfNeeded E r w =
      let (err, w1) := Recover.Run E r (logCall EvIsInitialized w) in
      match err with
      | Some e => (Some e, w1)
      | None =>
          let (err', w2) := Store.SetInitialized E w1 in
          match err' with
          | Some e => (Some (wrapError "setting initialized flag" e), w2)
          | None => (None, w2)
          end
      end).
    { unfold Recover.RunIfNeeded, Store.IsInitialized, bind, call, get, ret.
      rewrite Hc. simpl. rewrite Hi.
      destruct (Recover.Run E r (logCall EvIsInitialized w)) as [[e|] w1];
        [reflexivity|].
      destruct (Store.SetInitialized E w1) as [[e|] w2]; reflexivity. }
    split.
    + intros e He. rewrite Hunfold, (Run_not_listed e _ He). reflexivity.
    + intros repos Hrepos. cbv zeta. rewrite Hunfold.
      pose proof (proj1 (Run_listed repos (logCall EvIsInitialized w) Hrepos)) as Hres.
      pose proof (Run_calls repos (logCall EvIsInitialized w) Hrepos) as Hcalls.
      pose proof (Run_keeps_initialized (logCall EvIsInitialized w)) as Hinit.
      destruct (Recover.Run E r (logCall EvIsInitialized w)) as [err w1].
      simpl in Hres, Hcalls, Hinit. subst err.
      unfold Store.SetInitialized, bind, call, modify, ret.
      destruct (setInitializedErr E) as [e|]; simpl.
      * split; [|split; [reflexivity|split]].
        -- rewrite Hcalls. rewrite <- !app_assoc. reflexivity.
        -- discriminate.
        -- intros e' [= <-]. split; [reflexivity|]. now rewrite Hinit.
      * split; [|split; [reflexivity|split]].
        -- rewrite Hcalls. rewrite <- !app_assoc. reflexivity.
        -- intros _. split; reflexivity.
        -- discriminate.
Qed.

End RecoverFacts.

(** ** The webhook handler *)

Section HooksFacts.
Context (E : env) (h : Hooks.Handler).

(** A request that is not a POST is answered 405. *)
Lemma ServeHTTP_wrong_method (req : Hooks.Request) (w : world) :
  Hooks.Method req <> "POST" ->
  Hooks.ServeHTTP E h req w
    = (Hooks.httpError "method not allowed" Hooks.StatusMethodNotAllowed, w).
Proof.
  intros H. unfold Hooks.ServeHTTP.
  destruct (String.eqb_spec (Hooks.Method req) "POST"); [contradiction|reflexivity].
Qed.

(** A POST without the expected token is answered 401 and nothing is
    tracked. *)
Lemma ServeHTTP_unauthorized (req : Hooks.Request) (w : world) :
  Hooks.Method req = "POST" ->
  Hooks.Authorization req <> "Token " +:+ Hooks.hookToken h ->
  Hooks.ServeHTTP E h req w
    = ({| Hooks.Code := Hooks.StatusUnauthorized; Hooks.Written := "{}" |}, w).
Proof.
  intros Hm Ha. unfold Hooks.ServeHTTP. rewrite Hm. simpl.
  destruct (String.eqb_spec (Hooks.Authorization req) ("Token " +:+ Hooks.hookToken h));
    [contradiction|reflexivity].
Qed.

(** An authorized POST whose body does not decode is answered 400. *)
Lemma ServeHTTP_bad_request (req : Hooks.Request) (e : error) (w : world) :
  Hooks.Method req = "POST" ->
  Hooks.Authorization req = "Token " +:+ Hooks.hookToken h ->
  Hooks.Body req = Err e ->
  Hooks.ServeHTTP E h req w
    = (Hooks.httpError "bad request" Hooks.StatusBadRequest, w).
Proof.
  intros Hm Ha Hb. unfold Hooks.ServeHTTP. rewrite Hm, Ha, Hb. simpl.
  now rewrite String.eqb_refl.
Qed.

(** An authorized POST whose body decodes is answered 200, whatever the
    store did with the events. *)
Lemma ServeHTTP_decoded_is_200 (req : Hooks.Request) (envelope : Hooks.EventEnvelope)
    (w : world) :
  Hooks.Method req = "POST" ->
  Hooks.Authorization req = "Token " +:+ Hooks.hookToken h ->
  Hooks.Body req = Ok envelope ->
  fst (Hooks.ServeHTTP E h req w)
    = {| Hooks.Code := Hooks.StatusOK; Hooks.Written := "{}" |}.
Proof.
  intros Hm Ha Hb. unfold Hooks.ServeHTTP. rewrite Hm, Ha, Hb. simpl.
  rewrite String.eqb_refl. simpl. unfold bind, ret.
  now destruct (forEach (Hooks.handleEvent E h) (Hooks.Events envelope) w).
Qed.

End HooksFacts.

(** C7: the handler does not do what the claim says.  For an authorized,
    well-formed push event whose tracking write fails, [handlePush] returns
    the store's error, the image is not tracked, and the endpoint still
    answers 200. *)
Theorem ServeHTTP_store_failure_answers_200 :
  fst (Hooks.handlePush failingStoreEnv tokHandler "foo" "1h" emptyWorld)
    = Some "dial tcp: connection refused"
  /\ Hooks.Code (fst (Hooks.ServeHTTP failingStoreEnv tokHandler pushRequest emptyWorld))
     = Hooks.StatusOK
  /\ calls (snd (Hooks.ServeHTTP failingStoreEnv tokHandler pushRequest emptyWorld))
     = [EvTrackImage "foo:1h" (1700000000000000000 + 1 * Time.Hour)]
  /\ images (snd (Hooks.ServeHTTP failingStoreEnv tokHandler pushRequest emptyWorld))
     = ∅.
Proof. repeat split. Qed.

(** ** Expiry of what gets tracked *)

Section ExpiryFacts.
Context (E : env).



End ExpiryFacts.


(** ** The reaper *)

Section ReaperFacts.
Context (E : env).





















End ReaperFacts.





(** ** The repository's tests and the scenario of the specification, replayed *)

Section Replayed.

(** TestParseTTL. *)
Example test_ParseTTL :
  map ParseTTL ["5m"; "30m"; "1h"; "6h"; "24h"; "1d"; "1w"; "1h30m"; "2d12h";
                "30s"; "1d12h30m"; "latest"; "v1.0.0"; ""; "abc"; "sha-abc123"]
  = [5 * Time.Minute; 30 * Time.Minute; Time.Hour; 6 * Time.Hour; 24 * Time.Hour;
     24 * Time.Hour; 7 * 24 * Time.Hour; Time.Hour + 30 * Time.Minute;
     2 * 24 * Time.Hour + 12 * Time.Hour; 30 * Time.Second;
     24 * Time.Hour + 12 * Time.Hour + 30 * Time.Minute; -1; -1; -1; -1; -1].
Proof. vm_compute. reflexivity. Qed.

(** TestClampTTL. *)
Example test_ClampTTL :
  map (fun d => ClampTTL d Time.Hour (24 * Time.Hour))
      [-1; 0; 6 * Time.Hour; 48 * Time.Hour; 24 * Time.Hour; Time.Hour]
  = [Time.Hour; Time.Hour; 6 * Time.Hour; 24 * Time.Hour; 24 * Time.Hour; Time.Hour].
Proof. vm_compute. reflexivity. Qed.

(** A duration too long for 64 bits wraps around: the tag is then treated
    like an unparseable one by [ClampTTL]. *)
Example ParseTTL_wraps : ParseTTL "20000w" = -6350744073709551616.
Proof. vm_compute. reflexivity. Qed.

(** TestHandler_Auth and TestHandler_EventParsing. *)
Example test_Handler_statuses :
  let serve req := Hooks.Code (fst (Hooks.ServeHTTP healthyEnv tokHandler req emptyWorld)) in
  let envelope evs := Ok {| Hooks.Events := evs |} in
  let push repo tag :=
    {| Hooks.Action := "push";
       Hooks.Target := {| Hooks.Repository := repo; Hooks.Tag := tag |} |} in
  serve {| Hooks.Method := "POST"; Hooks.Authorization := "";
           Hooks.Body := envelope [] |} = 401
  /\ serve {| Hooks.Method := "POST"; Hooks.Authorization := "Token wrong-token";
              Hooks.Body := envelope [] |} = 401
  /\ serve {| Hooks.Method := "GET"; Hooks.Authorization := "";
              Hooks.Body := Err "EOF" |} = 405
  /\ serve {| Hooks.Method := "POST"; Hooks.Authorization := "Token tok";
              Hooks.Body := Err "invalid character" |} = 400
  /\ serve {| Hooks.Method := "POST"; Hooks.Authorization := "Token tok";
              Hooks.Body := envelope [] |} = 200
  /\ Hooks.ServeHTTP healthyEnv tokHandler
       {| Hooks.Method := "POST"; Hooks.Authorization := "Token tok";
          Hooks.Body := envelope
            [ {| Hooks.Action := "pull";
                 Hooks.Target := {| Hooks.Repository := "foo"; Hooks.Tag := "1h" |} |};
              push "" "1h"; push "foo" "" ] |} emptyWorld
     = ({| Hooks.Code := 200; Hooks.Written := "{}" |}, emptyWorld).
Proof. vm_compute. repeat split. Qed.

(** A push that is tracked: [foo:1h] expires one hour after the clock
    reading. *)
Example push_is_tracked :
  let w' := snd (Hooks.ServeHTTP healthyEnv tokHandler pushRequest emptyWorld) in
  images w' !! "foo:1h"
    = Some {| created := 1700000000000; expires := 1700003600000 |}
  /\ calls w' = [EvTrackImage "foo:1h" 1700003600000000000].
Proof. vm_compute. split; reflexivity. Qed.

(** TestDeleteImage_SuccessfulDelete and TestDeleteImage_InvalidFormat. *)
Example test_deleteImage :
  let w := {| images := {[ "myimage:1h" := {| created := 0; expires := 1 |} ]};
              initialized := false; lockHeld := false; calls := [] |} in
  fst (Reaper.deleteImage healthyEnv "myimage:1h" w) = None
  /\ images (snd (Reaper.deleteImage healthyEnv "myimage:1h" w)) = ∅
  /\ calls (snd (Reaper.deleteImage healthyEnv "myimage:1h" w))
     = [EvResolveDigest "myimage" "1h"; EvDeleteManifest "myimage" "sha256:abc123";
        EvRemoveImage "myimage:1h"]
  /\ fst (Reaper.deleteImage healthyEnv "no-colon-here" w) <> None
  /\ snd (Reaper.deleteImage healthyEnv "no-colon-here" w) = w.
Proof. vm_compute. repeat split. discriminate. Qed.

(** TestReapOnce_ExpiredImage, TestReapOnce_NotExpired and the end-to-end
    scenario: [myapp:5m] expired a minute ago, [myapp:1h] expires in an
    hour. *)
Example test_ReapOnce :
  let nowMs := Time.UnixMilli (now healthyEnv) in
  let kept := {| created := nowMs - 1; expires := nowMs + 3600000 |} in
  let w := {| images := {[ "myapp:5m" := {| created := nowMs - 360000;
                                            expires := nowMs - 60000 |};
                           "myapp:1h" := kept ]};
              initialized := true; lockHeld := false; calls := [] |} in
  let w' := snd (Reaper.ReapOnce healthyEnv w) in
  fst (Reaper.ReapOnce healthyEnv w) = None
  /\ images w' = {[ "myapp:1h" := kept ]}
  /\ size (images w') = (size (images w) - 1)%nat
  /\ calls w'
     = [EvAcquireReaperLock; EvListImages;
        EvGetExpiry "myapp:5m"; EvDeleteImage "myapp:5m";
        EvResolveDigest "myapp" "5m"; EvDeleteManifest "myapp" "sha256:abc123";
        EvRemoveImage "myapp:5m";
        EvGetExpiry "myapp:1h";
        EvReleaseReaperLock]
  /\ lockHeld w' = false.
Proof. vm_compute. repeat split. Qed.

(** TestRunIfNeeded_AlreadyInitialized. *)
Example test_RunIfNeeded_AlreadyInitialized :
  let r := {| Recover.defaultTTL := Time.Hour; Recover.maxTTL := 24 * Time.Hour |} in
  let w := {| images := ∅; initialized := true; lockHeld := false; calls := [] |} in
  Recover.RunIfNeeded healthyEnv r w = (None, logCall EvIsInitialized w).
Proof. reflexivity. Qed.

(** A first start: [app1] cannot be listed and is skipped, the two tags of
    [app2] are tracked, then the marker is set. *)
Example first_start :
  let r := {| Recover.defaultTTL := Time.Hour; Recover.maxTTL := 24 * Time.Hour |} in
  let w' := snd (Recover.RunIfNeeded healthyEnv r emptyWorld) in
  fst (Recover.RunIfNeeded healthyEnv r emptyWorld) = None
  /\ calls w'
     = [EvIsInitialized; EvListRepositories; EvListTags "app1"; EvListTags "app2";
        EvTrackImage "app2:1h" 1700003600000000000;
        EvTrackImage "app2:latest" 1700003600000000000; EvSetInitialized]
  /\ initialized w' = true
  /\ size (images w') = 2%nat.
Proof. vm_compute. repeat split. Qed.

End Replayed.

(** * Further properties of the code *)

(** ** Printing a number and reading it back *)

Section ItoaFacts.

Lemma decimal_app (s t : string) : forall a,
  decimal a (s +:+ t) = decimal (decimal a s) t.
Proof.
  induction s as [|c s IH]; intros a; [reflexivity|].
  change (decimal (10 * a + digitVal c) (s +:+ t)
          = decimal (decimal (10 * a + digitVal c) s) t).
  apply IH.
Qed.

Lemma allDigits_app (s t : string) :
  allDigits (s +:+ t) = allDigits s && allDigits t.
Proof.
  induction s as [|c s IH]; [reflexivity|].
  change (isDigit c && allDigits (s +:+ t) = isDigit c && allDigits s && allDigits t).
  now rewrite IH, andb_assoc.
Qed.

Lemma digitChar_digit (d : Z) :
  0 <= d < 10 -> isDigit (Fmt.digitChar d) = true /\ digitVal (Fmt.digitChar d) = d.
Proof.
  intros H. assert (Hd : d = 0 \/ d = 1 \/ d = 2 \/ d = 3 \/ d = 4 \/ d = 5
                         \/ d = 6 \/ d = 7 \/ d = 8 \/ d = 9) by lia.
  destruct Hd as [->|[->|[->|[->|[->|[->|[->|[->|[->| ->]]]]]]]]];
    split; reflexivity.
Qed.

(** What [digits] puts in front of the accumulator is a non-empty string of
    digits that reads as [n]. *)
Lemma digits_step (fuel : nat) (n : Z) (acc : string) :
  Fmt.digits (S fuel) n acc =
    if n <? 10 then String (Fmt.digitChar (n mod 10)) acc
    else Fmt.digits fuel (n / 10) (String (Fmt.digitChar (n mod 10)) acc).
Proof. reflexivity. Qed.

Lemma digits_spec (fuel : nat) : forall n acc,
  0 <= n < 2 ^ Z.of_nat (S fuel) ->
  exists s, Fmt.digits (S fuel) n acc = s +:+ acc
            /\ s <> EmptyString /\ allDigits s = true /\ decimal 0 s = n.
Proof.
  induction fuel as [|fuel IH]; intros n acc Hn;
    rewrite digits_step;
    assert (Hmod : 0 <= n mod 10 < 10) by (apply Z.mod_pos_bound; lia);
    destruct (digitChar_digit (n mod 10) Hmod) as [Hdig Hval];
    destruct (Z.ltb_spec n 10) as [Hlt|Hge].
  - exists (String (Fmt.digitChar (n mod 10)) EmptyString).
    split; [reflexivity|]. split; [discriminate|].
    split; [simpl; now rewrite Hdig|].
    simpl. rewrite Hval. rewrite Z.mod_small; lia.
  - exfalso. change (2 ^ Z.of_nat 1) with 2 in Hn. lia.
  - exists (String (Fmt.digitChar (n mod 10)) EmptyString).
    split; [reflexivity|]. split; [discriminate|].
    split; [simpl; now rewrite Hdig|].
    simpl. rewrite Hval. rewrite Z.mod_small; lia.
  - assert (Hq : 0 <= n / 10 < 2 ^ Z.of_nat (S fuel)).
    { split; [apply Z.div_pos; lia|].
      rewrite (Nat2Z.inj_succ (S fuel)), Z.pow_succ_r in Hn by lia.
      apply Z.div_lt_upper_bound; lia. }
    destruct (IH (n / 10) (String (Fmt.digitChar (n mod 10)) acc) Hq)
      as (s & Hs & Hne & Hall & Hdec).
    exists (s +:+ String (Fmt.digitChar (n mod 10)) EmptyString).
    split; [rewrite Hs; now rewrite append_assoc|].
    split; [destruct s; [contradiction|discriminate]|].
    split.
    + rewrite allDigits_app, Hall. simpl. now rewrite Hdig.
    + rewrite decimal_app, Hdec. simpl. rewrite Hval.
      pose proof (Z.div_mod n 10). lia.
Qed.

Lemma digitsFuel_enough (n : Z) :
  0 <= n -> 0 <= n < 2 ^ Z.of_nat (S (Z.to_nat (Z.log2 n))).
Proof.
  intros Hn. split; [exact Hn|].
  rewrite Nat2Z.inj_succ, Z2Nat.id by apply Z.log2_nonneg.
  destruct (Z.eq_dec n 0) as [->|Hne]; [reflexivity|].
  apply Z.log2_spec. lia.
Qed.

Lemma append_empty_r (s : string) : s +:+ EmptyString = s.
Proof.
  induction s as [|c s IH]; [reflexivity|].
  change (String c (s +:+ EmptyString) = String c s). now rewrite IH.
Qed.

(** [%d] of a non-negative number is a non-empty string of digits that
    reads back as the number. *)
Lemma Itoa_nonneg (n : Z) :
  0 <= n ->
  Fmt.Itoa n <> EmptyString /\ allDigits (Fmt.Itoa n) = true
  /\ decimal 0 (Fmt.Itoa n) = n.
Proof.
  intros Hn. unfold Fmt.Itoa.
  destruct (Z.ltb_spec n 0); [lia|].
  unfold Fmt.digitsFuel.
  destruct (digits_spec (Z.to_nat (Z.log2 n)) n EmptyString (digitsFuel_enough n Hn))
    as (s & -> & Hne & Hall & Hdec).
  rewrite append_empty_r. auto.
Qed.

End ItoaFacts.

(** ** The landing page's durations and the tag grammar *)

Section FormatFacts.
Context (durationString : Z -> string).

(** What [ParseTTL] returns for a tag that matches the pattern, when the
    duration fits in 64 bits. *)
Lemma ParseTTL_of_match (tag : string) (caps : list string) :
  patternMatch tag caps -> tag <> EmptyString ->
  existsb nonEmpty caps = true ->
  exactTTL (tag :: caps) <= Int64.MaxInt64 ->
  ParseTTL tag = exactTTL (tag :: caps).
Proof.
  intros Hm Hne Hv Hfit.
  apply FindStringSubmatch_patternMatch in Hm.
  unfold ParseTTL. rewrite Hm.
  destruct (String.eqb_spec tag EmptyString) as [->|_]; [contradiction|].
  simpl tl. rewrite Hv. cbv zeta. simpl negb. cbv iota.
  destruct (FindStringSubmatch_shape tag _ Hm) as (w & d & h & m & s0 & Heq & Hall).
  apply components_exact; [rewrite Heq; exact Hall|now rewrite Heq|exact Hfit].
Qed.

Lemma nonEmpty_true (s : string) : s <> EmptyString -> nonEmpty s = true.
Proof. destruct s; [contradiction|reflexivity]. Qed.

Lemma ParseTTL_hours_digits (ds : string) :
  ds <> EmptyString -> allDigits ds = true ->
  decimal 0 ds * Time.Hour <= Int64.MaxInt64 ->
  ParseTTL (ds +:+ "h") = decimal 0 ds * Time.Hour.
Proof.
  intros Hne Hd Hfit.
  assert (Hm : patternMatch (ds +:+ "h")
                 [EmptyString; EmptyString; ds; EmptyString; EmptyString]).
  { unfold patternMatch, units.
    refine (groups_cons "w" _ EmptyString _ EmptyString _ (group_absent _) _).
    refine (groups_cons "d" _ EmptyString _ EmptyString _ (group_absent _) _).
    rewrite <- (append_empty_r (ds +:+ "h")).
    refine (groups_cons "h" _ ds _ _ EmptyString (group_present _ ds Hne Hd) _).
    refine (groups_cons "m" _ EmptyString _ EmptyString EmptyString (group_absent _) _).
    refine (groups_cons "s" _ EmptyString _ EmptyString EmptyString (group_absent _) _).
    constructor. }
  rewrite (ParseTTL_of_match _ _ Hm).
  - unfold exactTTL, index. simpl nth. simpl decimal. lia.
  - destruct ds; [contradiction|discriminate].
  - simpl. rewrite (nonEmpty_true ds Hne). reflexivity.
  - unfold exactTTL, index. simpl nth. simpl decimal. lia.
Qed.

Lemma ParseTTL_minutes_digits (ds : string) :
  ds <> EmptyString -> allDigits ds = true ->
  decimal 0 ds * Time.Minute <= Int64.MaxInt64 ->
  ParseTTL (ds +:+ "m") = decimal 0 ds * Time.Minute.
Proof.
  intros Hne Hd Hfit.
  assert (Hm : patternMatch (ds +:+ "m")
                 [EmptyString; EmptyString; EmptyString; ds; EmptyString]).
  { unfold patternMatch, units.
    refine (groups_cons "w" _ EmptyString _ EmptyString _ (group_absent _) _).
    refine (groups_cons "d" _ EmptyString _ EmptyString _ (group_absent _) _).
    refine (groups_cons "h" _ EmptyString _ EmptyString _ (group_absent _) _).
    rewrite <- (append_empty_r (ds +:+ "m")).
    refine (groups_cons "m" _ ds _ _ EmptyString (group_present _ ds Hne Hd) _).
    refine (groups_cons "s" _ EmptyString _ EmptyString EmptyString (group_absent _) _).
    constructor. }
  rewrite (ParseTTL_of_match _ _ Hm).
  - unfold exactTTL, index. simpl nth. simpl decimal. lia.
  - destruct ds; [contradiction|discriminate].
  - simpl. rewrite (nonEmpty_true ds Hne). reflexivity.
  - unfold exactTTL, index. simpl nth. simpl decimal. lia.
Qed.

(** X1: a duration of whole minutes that the landing page prints with the
    unit [h] or [m] (at least a minute, not a whole number of days) is
    printed as a tag that [ParseTTL] reads back as the same duration. *)
Theorem formatDuration_ParseTTL_roundtrip (d : Z) :
  Time.Minute <= d <= Int64.MaxInt64 ->
  Z.rem d Time.Minute = 0 ->
  Z.rem d (24 * Time.Hour) <> 0 ->
  ParseTTL (Web.formatDuration durationString d) = d.
Proof.
  intros [Hlo Hhi] Hmin Hday. unfold Web.formatDuration.
  assert (Hpos : 0 <= d) by (unfold Time.Minute, Time.Second in Hlo; lia).
  destruct (Z.eqb_spec (Z.rem d (24 * Time.Hour)) 0) as [|_]; [contradiction|].
  rewrite andb_false_r.
  destruct ((d >=? Time.Hour) && (Z.rem d Time.Hour =? 0)) eqn:Hh.
  - apply andb_prop in Hh as [_ Hh]. apply Z.eqb_eq in Hh.
    rewrite Z.rem_mod_nonneg in Hh by (try assumption; reflexivity).
    rewrite Z.quot_div_nonneg by (try assumption; reflexivity).
    assert (Hq : 0 <= d / Time.Hour) by (apply Z.div_pos; [assumption|reflexivity]).
    destruct (Itoa_nonneg _ Hq) as (Hne & Hall & Hdec).
    rewrite ParseTTL_hours_digits; try assumption; rewrite Hdec;
      unfold Time.Hour, Time.Minute, Time.Second in *;
      pose proof (Z.div_mod d (60 * (60 * 1000000000))); lia.
  - assert (Hge : (d >=? Time.Minute) = true) by (apply Z.geb_le; exact Hlo).
    rewrite Hge. simpl andb.
    rewrite Z.rem_mod_nonneg in Hmin by (try assumption; reflexivity).
    assert (Hz : (Z.rem d Time.Minute =? 0) = true).
    { apply Z.eqb_eq. rewrite Z.rem_mod_nonneg by (try assumption; reflexivity).
      exact Hmin. }
    rewrite Hz.
    rewrite Z.quot_div_nonneg by (try assumption; reflexivity).
    assert (Hq : 0 <= d / Time.Minute) by (apply Z.div_pos; [assumption|reflexivity]).
    destruct (Itoa_nonneg _ Hq) as (Hne & Hall & Hdec).
    rewrite ParseTTL_minutes_digits; try assumption; rewrite Hdec;
      unfold Time.Hour, Time.Minute, Time.Second in *;
      pose proof (Z.div_mod d (60 * 1000000000)); lia.
Qed.

End FormatFacts.

Lemma formatDuration_ParseTTL_roundtrip_witness :
  Time.Minute <= 90 * Time.Minute <= Int64.MaxInt64
  /\ Z.rem (90 * Time.Minute) Time.Minute = 0
  /\ Z.rem (90 * Time.Minute) (24 * Time.Hour) <> 0
  /\ Web.formatDuration (fun _ => EmptyString) (90 * Time.Minute) = "90m"
  /\ ParseTTL (Web.formatDuration (fun _ => EmptyString) (90 * Time.Minute))
     = 90 * Time.Minute.
Proof.
  assert (H1 : Time.Minute <= 90 * Time.Minute <= Int64.MaxInt64)
    by (split; vm_compute; discriminate).
  assert (H2 : Z.rem (90 * Time.Minute) Time.Minute = 0) by reflexivity.
  assert (H3 : Z.rem (90 * Time.Minute) (24 * Time.Hour) <> 0)
    by (vm_compute; discriminate).
  split; [exact H1|]. split; [exact H2|]. split; [exact H3|].
  split; [vm_compute; reflexivity|].
  exact (formatDuration_ParseTTL_roundtrip (fun _ => EmptyString)
           (90 * Time.Minute) H1 H2 H3).
Defined.

(** ** The registry client *)

Section NextLinkFacts.

Lemma indexByte_range (sep : ascii) (s : string) :
  Client.indexByte sep s = -1 \/ 0 <= Client.indexByte sep s.
Proof.
  induction s as [|c r IH]; simpl; [now left|].
  destruct (Ascii.eqb c sep); [right; lia|].
  destruct (Z.ltb_spec (Client.indexByte sep r) 0); [now left | right; lia].
Qed.

(** The first occurrence in [pre ++ t] when [pre] has none. *)
Lemma indexByte_app (sep : ascii) (pre t : string) :
  Client.indexByte sep pre = -1 ->
  Client.indexByte sep (pre +:+ t) =
    if Client.indexByte sep t <? 0 then -1
    else Z.of_nat (String.length pre) + Client.indexByte sep t.
Proof.
  induction pre as [|c pre IH]; intros Habs.
  - change (EmptyString +:+ t) with t.
    destruct (indexByte_range sep t) as [->|H]; [reflexivity|].
    destruct (Z.ltb_spec (Client.indexByte sep t) 0); simpl; lia.
  - change (String c pre +:+ t) with (String c (pre +:+ t)).
    simpl in Habs |- *.
    destruct (Ascii.eqb c sep); [discriminate|].
    destruct (Z.ltb_spec (Client.indexByte sep pre) 0) as [Hlt|Hge]; [|lia].
    destruct (indexByte_range sep pre) as [Hp|Hp]; [|lia].
    rewrite (IH Hp).
    destruct (Z.ltb_spec (Client.indexByte sep t) 0); [reflexivity|].
    destruct (Z.ltb_spec (Z.of_nat (String.length pre) + Client.indexByte sep t) 0); lia.
Qed.

Lemma substring_skip_byte (pre t : string) (c : ascii) (n : nat) :
  substring (S (String.length pre)) n (pre +:+ String c t) = substring 0 n t.
Proof. induction pre as [|x pre IH]; [reflexivity | exact IH]. Qed.

Lemma substring_prefix (path t : string) :
  substring 0 (String.length path) (path +:+ t) = path.
Proof.
  induction path as [|c path IH]; [now destruct t|].
  change (String c (substring 0 (String.length path) (path +:+ t)) = String c path).
  now rewrite IH.
Qed.

(** X3: for a [Link] header made of anything without angle brackets, then
    [<path>] (no [>] in the path), then anything at all, [nextLink] returns
    the path, put after the base URL when it starts with a slash; what
    follows the first [>] (the [rel] parameter) plays no part. *)
Theorem nextLink_extracts_path (pre path rest baseURL : string) :
  Client.indexByte "<" pre = -1 ->
  Client.indexByte ">" pre = -1 ->
  Client.indexByte ">" path = -1 ->
  Client.nextLink (pre +:+ "<" +:+ path +:+ ">" +:+ rest) baseURL =
    if Client.hasSlashPrefix path then baseURL +:+ path else path.
Proof.
  intros Hlt Hgt Hpath. unfold Client.nextLink.
  set (link := pre +:+ "<" +:+ path +:+ ">" +:+ rest).
  assert (Hne : String.eqb link EmptyString = false).
  { unfold link. destruct pre; reflexivity. }
  rewrite Hne.
  assert (Hstart : Client.indexByte "<" link = Z.of_nat (String.length pre)).
  { unfold link. rewrite (indexByte_app "<" pre _ Hlt). simpl. lia. }
  assert (Hend : Client.indexByte ">" link
                 = Z.of_nat (String.length pre) + 1 + Z.of_nat (String.length path)).
  { unfold link. rewrite (indexByte_app ">" pre _ Hgt).
    change ("<" +:+ path +:+ ">" +:+ rest) with (String "<" (path +:+ ">" +:+ rest)).
    cbn [Client.indexByte]. change (Ascii.eqb "<" ">") with false. cbv iota.
    rewrite (indexByte_app ">" path _ Hpath). simpl.
    destruct (Z.ltb_spec (Z.of_nat (String.length path) + 0) 0); [lia|].
    destruct (Z.ltb_spec (Z.of_nat (String.length path) + 0 + 1) 0); lia. }
  rewrite Hstart, Hend.
  destruct (Z.ltb_spec (Z.of_nat (String.length pre)) 0); [lia|].
  destruct (Z.ltb_spec (Z.of_nat (String.length pre) + 1 + Z.of_nat (String.length path)) 0);
    [lia|].
  destruct (Z.leb_spec (Z.of_nat (String.length pre) + 1 + Z.of_nat (String.length path))
              (Z.of_nat (String.length pre))); [lia|].
  simpl orb. cbv iota.
  assert (Hslice : Client.slice link (Z.of_nat (String.length pre) + 1)
                     (Z.of_nat (String.length pre) + 1 + Z.of_nat (String.length path))
                   = path).
  { unfold Client.slice, link.
    replace (Z.to_nat (Z.of_nat (String.length pre) + 1)) with (S (String.length pre)) by lia.
    replace (Z.to_nat (Z.of_nat (String.length pre) + 1 + Z.of_nat (String.length path)
                       - (Z.of_nat (String.length pre) + 1)))
      with (String.length path) by lia.
    change (pre +:+ "<" +:+ path +:+ ">" +:+ rest)
      with (pre +:+ String "<" (path +:+ ">" +:+ rest)).
    rewrite substring_skip_byte. apply substring_prefix. }
  now rewrite Hslice.
Qed.

Lemma nextLink_extracts_path_witness :
  Client.indexByte "<" "" = -1 /\ Client.indexByte ">" "" = -1
  /\ Client.indexByte ">" "/v2/_catalog?n=1000&last=app1" = -1
  /\ Client.nextLink ("" +:+ "<" +:+ "/v2/_catalog?n=1000&last=app1" +:+ ">" +:+ "; rel=next")
       "http://registry:5000"
     = "http://registry:5000/v2/_catalog?n=1000&last=app1".
Proof.
  split; [reflexivity|]. split; [reflexivity|]. split; [reflexivity|].
  exact (nextLink_extracts_path "" "/v2/_catalog?n=1000&last=app1" "; rel=next"
           "http://registry:5000" eq_refl eq_refl eq_refl).
Defined.

(** A header without an opening or without a closing angle bracket gives
    no next link. *)
Lemma nextLink_no_brackets (link baseURL : string) :
  Client.indexByte "<" link = -1 \/ Client.indexByte ">" link = -1 ->
  Client.nextLink link baseURL = EmptyString.
Proof.
  intros H. unfold Client.nextLink.
  destruct (String.eqb link EmptyString); [reflexivity|].
  destruct H as [-> | ->]; [reflexivity|].
  now rewrite orb_true_r.
Qed.

End NextLinkFacts.

Section PagingFacts.
Context (T : Client.transport) (c : Client.Client).
Context (creating doing decoding : string).

Lemma drain_more_fuel (fuel : nat) : forall url all r,
  Client.drain T c creating doing decoding fuel url all = Some r ->
  Client.drain T c creating doing decoding (S fuel) url all = Some r.
Proof.
  induction fuel as [|fuel IH]; intros url all r.
  - simpl. destruct (String.eqb url EmptyString); [auto|discriminate].
  - intros H. cbn [Client.drain] in H |- *.
    destruct (String.eqb url EmptyString); [exact H|].
    destruct (Client.newRequestErr T url); [exact H|].
    destruct (Client.roundTrip T url) as [resp|e]; [|exact H].
    destruct (Client.decoded resp) as [names|e]; [|exact H].
    apply IH in H. exact H.
Qed.

Lemma drain_enough_fuel (fuel fuel' : nat) url all r :
  (fuel <= fuel')%nat ->
  Client.drain T c creating doing decoding fuel url all = Some r ->
  Client.drain T c creating doing decoding fuel' url all = Some r.
Proof.
  induction 1 as [|fuel' _ IH]; [auto|].
  intros H. now apply drain_more_fuel, IH.
Qed.

Lemma drain_complete url names :
  Client.pages T c url names ->
  exists fuel, forall all,
    Client.drain T c creating doing decoding fuel url all = Some (Ok (all ++ names)).
Proof.
  induction 1 as [|url resp names rest Hne Hreq Hrt Hdec _ [fuel IH]].
  - exists O. intros all. simpl. now rewrite app_nil_r.
  - exists (S fuel). intros all. cbn [Client.drain].
    destruct (String.eqb_spec url EmptyString) as [|_]; [contradiction|].
    rewrite Hreq, Hrt, Hdec, IH. now rewrite app_assoc.
Qed.

Lemma drain_sound (fuel : nat) : forall url all res,
  Client.drain T c creating doing decoding fuel url all = Some (Ok res) ->
  exists names, res = all ++ names /\ Client.pages T c url names.
Proof.
  induction fuel as [|fuel IH]; intros url all res; cbn [Client.drain];
    destruct (String.eqb_spec url EmptyString) as [->|Hne].
  - intros [= <-]. exists []. split; [now rewrite app_nil_r | constructor].
  - discriminate.
  - intros [= <-]. exists []. split; [now rewrite app_nil_r | constructor].
  - destruct (Client.newRequestErr T url) eqn:Hreq; [discriminate|].
    destruct (Client.roundTrip T url) as [resp|e] eqn:Hrt; [|discriminate].
    destruct (Client.decoded resp) as [names|e] eqn:Hdec; [|discriminate].
    intros H. destruct (IH _ _ _ H) as (rest & -> & Hp).
    exists (names ++ rest). split; [now rewrite app_assoc|].
    now apply (Client.pages_next T c url resp).
Qed.

(** A page that links to itself is requested again and again. *)
Lemma drain_self_link url resp names :
  url <> EmptyString ->
  Client.newRequestErr T url = None ->
  Client.roundTrip T url = Ok resp ->
  Client.decoded resp = Ok names ->
  Client.nextLink (Client.linkHeader resp) (Client.baseURL c) = url ->
  forall fuel all, Client.drain T c creating doing decoding fuel url all = None.
Proof.
  intros Hne Hreq Hrt Hdec Hlink fuel.
  induction fuel as [|fuel IH]; intros all; cbn [Client.drain];
    destruct (String.eqb_spec url EmptyString) as [|_]; try contradiction;
    [reflexivity|].
  rewrite Hreq, Hrt, Hdec, Hlink. apply IH.
Qed.

End PagingFacts.

(** X4: [ListRepositories] and [ListTags] return a list of names exactly
    when the pages reached from their first URL by following the [Link]
    headers end, every request on the way succeeding and every body
    decoding; the list is then the names of all these pages, in order.
    Fuel beyond what is needed does not change the result. *)
Theorem listing_drains_pagination (T : Client.transport) (c : Client.Client)
    (repo : string) (names : list string) :
  ((exists fuel, Client.ListRepositories T c fuel = Some (Ok names))
   <-> Client.pages T c (Client.baseURL c +:+ "/v2/_catalog?n=1000") names)
  /\ ((exists fuel, Client.ListTags T c fuel repo = Some (Ok names))
      <-> Client.pages T c
            (Client.baseURL c +:+ "/v2/" +:+ repo +:+ "/tags/list?n=1000") names)
  /\ (forall fuel fuel' r, (fuel <= fuel')%nat ->
        (Client.ListRepositories T c fuel = Some r ->
         Client.ListRepositories T c fuel' = Some r)
        /\ (Client.ListTags T c fuel repo = Some r ->
            Client.ListTags T c fuel' repo = Some r)).
Proof.
  unfold Client.ListRepositories, Client.ListTags.
  split; [|split].
  - split.
    + intros [fuel H]. apply drain_sound in H as (ns & -> & Hp). exact Hp.
    + intros Hp.
      destruct (drain_complete T c "creating catalog request" "listing catalog"
                  "decoding catalog response" _ _ Hp) as [fuel H].
      exists fuel. apply (H []).
  - split.
    + intros [fuel H]. apply drain_sound in H as (ns & -> & Hp). exact Hp.
    + intros Hp.
      destruct (drain_complete T c "creating tags request"
                  ("listing tags for " +:+ repo) "decoding tags response" _ _ Hp)
        as [fuel H].
      exists fuel. apply (H []).
  - intros fuel fuel' r Hle. split; apply drain_enough_fuel; exact Hle.
Qed.

(** X5: as long as the registry answers the catalog request with a [Link]
    header that leads back to the same URL, [ListRepositories] does not
    return: however many requests it is allowed, it is still asking. *)
Theorem ListRepositories_self_link_never_returns
    (T : Client.transport) (c : Client.Client) (resp : Client.response)
    (names : list string) :
  Client.newRequestErr T (Client.baseURL c +:+ "/v2/_catalog?n=1000") = None ->
  Client.roundTrip T (Client.baseURL c +:+ "/v2/_catalog?n=1000") = Ok resp ->
  Client.decoded resp = Ok names ->
  Client.nextLink (Client.linkHeader resp) (Client.baseURL c)
    = Client.baseURL c +:+ "/v2/_catalog?n=1000" ->
  forall fuel, Client.ListRepositories T c fuel = None.
Proof.
  intros Hreq Hrt Hdec Hlink fuel. unfold Client.ListRepositories.
  apply (drain_self_link T c _ _ _ _ resp names); try assumption.
  destruct (Client.baseURL c); discriminate.
Qed.

Lemma ListRepositories_self_link_never_returns_witness :
  Client.ListRepositories loopingTransport (Client.New "http://registry:5000/") 1000
    = None.
Proof.
  exact (ListRepositories_self_link_never_returns loopingTransport
           (Client.New "http://registry:5000/")
           {| Client.decoded := Ok ["app1"];
              Client.linkHeader := "</v2/_catalog?n=1000>; rel=next" |}
           ["app1"] eq_refl eq_refl eq_refl eq_refl 1000%nat).
Defined.

Section NewFacts.

Lemma trimRightSlash_slash (s : string) :
  Client.trimRightSlash (s +:+ "/") = Client.trimRightSlash s.
Proof.
  induction s as [|c s IH]; [reflexivity|].
  change (String c s +:+ "/") with (String c (s +:+ "/")).
  cbn [Client.trimRightSlash]. now rewrite IH.
Qed.

Lemma trimRightSlash_no_trailing_slash (s t : string) :
  Client.trimRightSlash s <> t +:+ "/".
Proof.
  revert t. induction s as [|c s IH]; intros t; cbn [Client.trimRightSlash].
  - destruct t; discriminate.
  - destruct (Client.trimRightSlash s) as [|c' r'] eqn:Hr.
    + destruct (Ascii.eqb_spec c "/") as [->|Hc].
      * destruct t; discriminate.
      * destruct t as [|x [|y t]]; try discriminate.
        intros [= ->]. now apply Hc.
    + destruct t as [|x t]; [discriminate|].
      change (String x t +:+ "/") with (String x (t +:+ "/")).
      intros [= -> H]. now apply (IH t).
Qed.

Lemma trimRightSlash_removes_slashes (s : string) :
  exists slashes, s = Client.trimRightSlash s +:+ slashes /\ Client.onlySlashes slashes = true.
Proof.
  induction s as [|c s (sl & Hs & Hsl)]; [exists EmptyString; split; reflexivity|].
  cbn [Client.trimRightSlash].
  destruct (Client.trimRightSlash s) as [|c' r'] eqn:Hr.
  - change (EmptyString +:+ sl) with sl in Hs. subst sl.
    destruct (Ascii.eqb_spec c "/") as [->|Hc].
    + exists (String "/" s). split; [reflexivity|]. simpl. exact Hsl.
    + exists s. split; [reflexivity | exact Hsl].
  - exists sl. split; [|exact Hsl].
    change (String c s = String c (String c' r' +:+ sl)). now rewrite <- Hs.
Qed.

(** X6: [New] drops the trailing slashes of the registry URL and nothing
    else: the base URL never ends with a slash, the URL given is the base
    URL followed by slashes only, and one more trailing slash gives the
    same client. *)
Theorem New_trims_trailing_slashes (registryURL : string) :
  (forall t, Client.baseURL (Client.New registryURL) <> t +:+ "/")
  /\ (exists slashes,
        registryURL = Client.baseURL (Client.New registryURL) +:+ slashes
        /\ Client.onlySlashes slashes = true)
  /\ Client.New (registryURL +:+ "/") = Client.New registryURL.
Proof.
  unfold Client.New. simpl. split; [|split].
  - apply trimRightSlash_no_trailing_slash.
  - apply trimRightSlash_removes_slashes.
  - now rewrite trimRightSlash_slash.
Qed.

End NewFacts.

(** ** The webhook handler, request by request *)

Section ServeFacts.
Context (E : env) (h : Hooks.Handler).

Lemma handleEvent_calls (ev : Hooks.RegistryEvent) (w : world) :
  calls (snd (Hooks.handleEvent E h ev w))
    = calls w ++ (if Hooks.isTrackedPush ev then [Hooks.pushCall E h ev] else []).
Proof.
  unfold Hooks.handleEvent, Hooks.isTrackedPush, Hooks.handlePush, Hooks.pushCall,
    bind, ret.
  destruct (String.eqb (Hooks.Action ev) "push"); simpl; [|now rewrite app_nil_r].
  destruct (_ || _); simpl; [now rewrite app_nil_r|].
  pose proof (TrackImage_calls E
    (imageRef (Hooks.Repository (Hooks.Target ev)) (Hooks.Tag (Hooks.Target ev)))
    (Time.Add (now E) (ClampTTL (ParseTTL (Hooks.Tag (Hooks.Target ev)))
       (Hooks.defaultTTL h) (Hooks.maxTTL h))) w) as H.
  destruct (Store.TrackImage E _ _ w). exact H.
Qed.

Lemma handleEvent_images (ev : Hooks.RegistryEvent) (w : world) :
  images (snd (Hooks.handleEvent E h ev w)) =
    if Hooks.isTrackedPush ev then
      match trackImageErr E (imageRef (Hooks.Repository (Hooks.Target ev))
                                      (Hooks.Tag (Hooks.Target ev))) with
      | Some _ => images w
      | None =>
          <[imageRef (Hooks.Repository (Hooks.Target ev)) (Hooks.Tag (Hooks.Target ev)) :=
              {| created := Time.UnixMilli (now E);
                 expires := Time.UnixMilli (Time.Add (now E)
                   (ClampTTL (ParseTTL (Hooks.Tag (Hooks.Target ev)))
                      (Hooks.defaultTTL h) (Hooks.maxTTL h))) |}]> (images w)
      end
    else images w.
Proof.
  unfold Hooks.handleEvent, Hooks.isTrackedPush, Hooks.handlePush, bind, ret.
  destruct (String.eqb (Hooks.Action ev) "push"); simpl; [|reflexivity].
  destruct (_ || _); simpl; [reflexivity|].
  pose proof (TrackImage_images E
    (imageRef (Hooks.Repository (Hooks.Target ev)) (Hooks.Tag (Hooks.Target ev)))
    (Time.Add (now E) (ClampTTL (ParseTTL (Hooks.Tag (Hooks.Target ev)))
       (Hooks.defaultTTL h) (Hooks.maxTTL h))) w) as H.
  destruct (Store.TrackImage E _ _ w). exact H.
Qed.

Lemma handleEvent_keeps_tracked (ev : Hooks.RegistryEvent) (img : string) (w : world) :
  is_Some (images w !! img) ->
  is_Some (images (snd (Hooks.handleEvent E h ev w)) !! img).
Proof.
  intros H. rewrite handleEvent_images.
  destruct (Hooks.isTrackedPush ev); [|exact H].
  destruct (trackImageErr E _); [exact H|].
  destruct (decide (imageRef (Hooks.Repository (Hooks.Target ev))
                             (Hooks.Tag (Hooks.Target ev)) = img)) as [->|Hne].
  - rewrite lookup_insert_eq. eauto.
  - now rewrite lookup_insert_ne.
Qed.

Lemma tracked_pushes (evs : list Hooks.RegistryEvent) :
  flat_map (fun ev => if Hooks.isTrackedPush ev then [Hooks.pushCall E h ev] else []) evs
  = map (Hooks.pushCall E h) (List.filter Hooks.isTrackedPush evs).
Proof.
  induction evs as [|ev evs IH]; [reflexivity|]. simpl.
  destruct (Hooks.isTrackedPush ev); simpl; now rewrite IH.
Qed.

Lemma events_calls (evs : list Hooks.RegistryEvent) (w : world) :
  calls (snd (forEach (Hooks.handleEvent E h) evs w))
    = calls w ++ map (Hooks.pushCall E h) (List.filter Hooks.isTrackedPush evs).
Proof.
  rewrite <- tracked_pushes. apply forEach_calls. apply handleEvent_calls.
Qed.

(** What one request adds to the log, whatever the request. *)
Lemma ServeHTTP_calls (req : Hooks.Request) (w : world) :
  exists evs,
    calls (snd (Hooks.ServeHTTP E h req w)) = calls w ++ map (Hooks.pushCall E h) evs.
Proof.
  unfold Hooks.ServeHTTP.
  destruct (negb _); [exists []; simpl; now rewrite app_nil_r|].
  destruct (negb _); [exists []; simpl; now rewrite app_nil_r|].
  destruct (Hooks.Body req) as [envelope|e];
    [|exists []; simpl; now rewrite app_nil_r].
  exists (List.filter Hooks.isTrackedPush (Hooks.Events envelope)).
  unfold bind, ret. pose proof (events_calls (Hooks.Events envelope) w) as H.
  destruct (forEach _ _ w). exact H.
Qed.

(** X7: an authorized POST whose body decodes is answered 200, and the
    calls it makes are exactly one [TrackImage] for each event that is a
    push with a repository and a tag, in the order of the events; the other
    events are passed over.  Every such push whose write succeeds is
    tracked afterwards. *)
Theorem ServeHTTP_tracks_the_pushes (req : Hooks.Request)
    (envelope : Hooks.EventEnvelope) (w : world) :
  Hooks.Method req = "POST" ->
  Hooks.Authorization req = "Token " +:+ Hooks.hookToken h ->
  Hooks.Body req = Ok envelope ->
  let w' := snd (Hooks.ServeHTTP E h req w) in
  Hooks.Code (fst (Hooks.ServeHTTP E h req w)) = Hooks.StatusOK
  /\ calls w' = calls w ++ map (Hooks.pushCall E h)
                            (List.filter Hooks.isTrackedPush (Hooks.Events envelope))
  /\ (forall ev, ev ∈ Hooks.Events envelope -> Hooks.isTrackedPush ev = true ->
        trackImageErr E (imageRef (Hooks.Repository (Hooks.Target ev))
                                  (Hooks.Tag (Hooks.Target ev))) = None ->
        is_Some (images w' !! imageRef (Hooks.Repository (Hooks.Target ev))
                                       (Hooks.Tag (Hooks.Target ev)))).
Proof.
  intros Hm Ha Hb. cbv zeta.
  assert (Hrun : Hooks.ServeHTTP E h req w =
    ({| Hooks.Code := Hooks.StatusOK; Hooks.Written := "{}" |},
     snd (forEach (Hooks.handleEvent E h) (Hooks.Events envelope) w))).
  { unfold Hooks.ServeHTTP. rewrite Hm, Ha, Hb. simpl.
    rewrite String.eqb_refl. simpl. unfold bind, ret.
    now destruct (forEach _ _ w). }
  rewrite Hrun. simpl. split; [reflexivity|]. split; [apply events_calls|].
  intros ev Hin Hpush Hok.
  apply (forEach_establishes
    (fun w1 => is_Some (images w1 !! imageRef (Hooks.Repository (Hooks.Target ev))
                                            (Hooks.Tag (Hooks.Target ev))))
    _ _ ev Hin).
  - intros w1. rewrite handleEvent_images, Hpush, Hok, lookup_insert_eq. eauto.
  - intros ev' w1. apply handleEvent_keeps_tracked.
Qed.

(** X8: a request that does not carry the hook token changes nothing: the
    world is left as it was, no call is made to the store, and the answer
    is 401, or 405 when the request is not a POST. *)
Theorem ServeHTTP_without_token_changes_nothing (req : Hooks.Request) (w : world) :
  Hooks.Authorization req <> "Token " +:+ Hooks.hookToken h ->
  snd (Hooks.ServeHTTP E h req w) = w
  /\ (Hooks.Code (fst (Hooks.ServeHTTP E h req w)) = Hooks.StatusUnauthorized
      \/ Hooks.Code (fst (Hooks.ServeHTTP E h req w)) = Hooks.StatusMethodNotAllowed)
  /\ (Hooks.Method req = "POST" ->
      Hooks.Code (fst (Hooks.ServeHTTP E h req w)) = Hooks.StatusUnauthorized).
Proof.
  intros Ha. unfold Hooks.ServeHTTP.
  destruct (String.eqb_spec (Hooks.Method req) "POST") as [Hm|Hm]; simpl.
  - destruct (String.eqb_spec (Hooks.Authorization req)
                ("Token " +:+ Hooks.hookToken h)); [contradiction|].
    simpl. auto.
  - split; [reflexivity|]. split; [now right | contradiction].
Qed.

End ServeFacts.

Lemma ServeHTTP_tracks_the_pushes_witness :
  Hooks.Method pushRequest = "POST"
  /\ Hooks.Authorization pushRequest = "Token " +:+ Hooks.hookToken tokHandler
  /\ calls (snd (Hooks.ServeHTTP healthyEnv tokHandler pushRequest emptyWorld))
     = [EvTrackImage "foo:1h" (1700000000000000000 + 1 * Time.Hour)].
Proof.
  split; [reflexivity|]. split; [reflexivity|].
  exact (proj1 (proj2 (ServeHTTP_tracks_the_pushes healthyEnv tokHandler pushRequest
                         _ emptyWorld eq_refl eq_refl eq_refl))).
Defined.

Lemma ServeHTTP_without_token_changes_nothing_witness :
  "Token guess" <> "Token " +:+ Hooks.hookToken tokHandler
  /\ snd (Hooks.ServeHTTP healthyEnv tokHandler
            {| Hooks.Method := "POST"; Hooks.Authorization := "Token guess";
               Hooks.Body := Hooks.Body pushRequest |} emptyWorld) = emptyWorld.
Proof.
  assert (H : "Token guess" <> "Token " +:+ Hooks.hookToken tokHandler)
    by discriminate.
  split; [exact H|].
  exact (proj1 (ServeHTTP_without_token_changes_nothing healthyEnv tokHandler
                  {| Hooks.Method := "POST"; Hooks.Authorization := "Token guess";
                     Hooks.Body := Hooks.Body pushRequest |} emptyWorld H)).
Defined.

(** ** Reconciliation, run after run *)

Section RunFacts.
Context (E : env) (r : Recover.Runner).

Lemma forEach_dom {A : Type} (f : A -> M unit) (g : A -> list string) (l : list A) :
  (forall x w, dom (images (snd (f x w))) = dom (images w) ∪ list_to_set (g x)) ->
  forall w, dom (images (snd (forEach f l w)))
            = dom (images w) ∪ list_to_set (flat_map g l).
Proof.
  intros Hf. induction l as [|x rest IH]; intros w; simpl.
  - now rewrite (right_id_L ∅ (∪)).
  - unfold bind. specialize (Hf x w). destruct (f x w) as [u w1]. simpl in Hf.
    now rewrite IH, Hf, list_to_set_app_L, (assoc_L (∪)).
Qed.

Lemma recoverTag_dom repo tag w :
  dom (images (snd (Recover.recoverTag E r repo tag w)))
    = dom (images w)
      ∪ list_to_set (if Recover.writable E (imageRef repo tag)
                     then [imageRef repo tag] else []).
Proof.
  rewrite recoverTag_images. unfold Recover.writable.
  destruct (trackImageErr E (imageRef repo tag)); simpl.
  - now rewrite (right_id_L ∅ (∪)).
  - rewrite dom_insert_L, (right_id_L ∅ (∪)). apply (comm_L (∪)).
Qed.

Lemma recoverRepo_dom repo w :
  dom (images (snd (Recover.recoverRepo E r repo w)))
    = dom (images w) ∪ list_to_set (Recover.recoveredOf E repo).
Proof.
  unfold Recover.recoverRepo, Recover.recoveredOf, Registry.ListTags, bind, call, ret.
  destruct (listTags E repo) as [tags|e]; simpl;
    [|now rewrite (right_id_L ∅ (∪))].
  rewrite (forEach_dom _ (fun tag => if Recover.writable E (imageRef repo tag)
                                     then [imageRef repo tag] else [])).
  - simpl. f_equal. f_equal.
    induction tags as [|t ts IH]; [reflexivity|]. simpl.
    destruct (Recover.writable E (imageRef repo t)); simpl; now rewrite IH.
  - intros tag w1. apply recoverTag_dom.
Qed.

Lemma Run_dom repos w :
  listRepositories E = Ok repos ->
  dom (images (snd (Recover.Run E r w)))
    = dom (images w) ∪ list_to_set (flat_map (Recover.recoveredOf E) repos).
Proof.
  intros Hrepos. rewrite (proj2 (Run_listed E r repos w Hrepos)).
  rewrite (forEach_dom _ (Recover.recoveredOf E)); [reflexivity|].
  intros repo w1. apply recoverRepo_dom.
Qed.



End RunFacts.

(** X10: reconciliation is idempotent on the tracking set: a second run,
    at a later time and with other TTL settings, over a catalog and a store
    that answer as before, leaves exactly the images tracked that the first
    run left tracked. *)
Theorem Run_twice_same_tracking_set (E E' : env) (r r' : Recover.Runner) (w : world) :
  listRepositories E' = listRepositories E ->
  (forall repo, listTags E' repo = listTags E repo) ->
  (forall img, trackImageErr E' img = trackImageErr E img) ->
  dom (images (snd (Recover.Run E' r' (snd (Recover.Run E r w)))))
    = dom (images (snd (Recover.Run E r w))).
Proof.
  intros Hrepos Htags Herr.
  destruct (listRepositories E) as [repos|e] eqn:Hl.
  - rewrite (Run_dom E' r' repos _ Hrepos), (Run_dom E r repos w Hl).
    assert (Hsame : flat_map (Recover.recoveredOf E') repos
                    = flat_map (Recover.recoveredOf E) repos).
    { clear Hl Hrepos. induction repos as [|repo repos IH]; [reflexivity|].
      simpl. rewrite IH. f_equal.
      unfold Recover.recoveredOf. rewrite Htags.
      destruct (listTags E repo) as [tags|]; [|reflexivity].
      apply filter_ext. intros img. unfold Recover.writable. now rewrite Herr. }
    rewrite Hsame. rewrite <- (assoc_L (∪)). now rewrite (idemp_L (∪)).
  - rewrite (Run_not_listed E' r' e _ Hrepos). reflexivity.
Qed.


Lemma Run_twice_same_tracking_set_witness :
  let later := {| now := now healthyEnv + 5 * Time.Minute;
                  isInitializedErr := isInitializedErr healthyEnv;
                  setInitializedErr := setInitializedErr healthyEnv;
                  trackImageErr := trackImageErr healthyEnv;
                  listImagesErr := listImagesErr healthyEnv;
                  listRepositories := listRepositories healthyEnv;
                  listTags := listTags healthyEnv;
                  resolveDigest := resolveDigest healthyEnv;
                  deleteManifest := deleteManifest healthyEnv |} in
  let r := {| Recover.defaultTTL := Time.Hour; Recover.maxTTL := 24 * Time.Hour |} in
  dom (images (snd (Recover.Run later r (snd (Recover.Run healthyEnv r emptyWorld)))))
    = dom (images (snd (Recover.Run healthyEnv r emptyWorld))).
Proof.
  cbv zeta.
  apply Run_twice_same_tracking_set; [reflexivity | intros; reflexivity | intros; reflexivity].
Defined.

(** X11: reconciliation at startup happens once: after a [RunIfNeeded] that
    returned no error, a later [RunIfNeeded] whose initialization check
    works only makes that check and changes nothing else. *)
Theorem RunIfNeeded_once (E E' : env) (r r' : Recover.Runner) (w : world) :
  fst (Recover.RunIfNeeded E r w) = None ->
  isInitializedErr E' = None ->
  Recover.RunIfNeeded E' r' (snd (Recover.RunIfNeeded E r w))
    = (None, logCall EvIsInitialized (snd (Recover.RunIfNeeded E r w))).
Proof.
  intros Hok Hcheck.
  assert (Hinit : initialized (snd (Recover.RunIfNeeded E r w)) = true).
  { revert Hok.
    unfold Recover.RunIfNeeded, Store.IsInitialized, bind, call, get, ret.
    destruct (isInitializedErr E); [discriminate|]. simpl.
    destruct (initialized w) eqn:Hi; [intros _; exact Hi|].
    destruct (Recover.Run E r (logCall EvIsInitialized w)) as [[e|] w1];
      [discriminate|].
    unfold Store.SetInitialized, bind, call, modify, ret.
    destruct (setInitializedErr E); [discriminate|]. reflexivity. }
  unfold Recover.RunIfNeeded at 1. unfold Store.IsInitialized, bind, call, get, ret.
  rewrite Hcheck. simpl. now rewrite Hinit.
Qed.

Lemma RunIfNeeded_once_witness :
  let r := {| Recover.defaultTTL := Time.Hour; Recover.maxTTL := 24 * Time.Hour |} in
  fst (Recover.RunIfNeeded healthyEnv r emptyWorld) = None
  /\ isInitializedErr healthyEnv = None
  /\ Recover.RunIfNeeded healthyEnv r (snd (Recover.RunIfNeeded healthyEnv r emptyWorld))
     = (None, logCall EvIsInitialized (snd (Recover.RunIfNeeded healthyEnv r emptyWorld))).
Proof.
  cbv zeta.
  assert (H : fst (Recover.RunIfNeeded healthyEnv
                     {| Recover.defaultTTL := Time.Hour; Recover.maxTTL := 24 * Time.Hour |}
                     emptyWorld) = None) by (vm_compute; reflexivity).
  split; [exact H|]. split; [reflexivity|].
  exact (RunIfNeeded_once healthyEnv healthyEnv _ _ emptyWorld H eq_refl).
Defined.

(** ** The configuration *)

Section ConfigFacts.

Lemma effective_ttl_bounds (cfg : Config.Config) (tag : string) :
  Config.Validate cfg = None ->
  0 < ClampTTL (ParseTTL tag) (Config.DefaultTTL cfg) (Config.MaxTTL cfg)
    <= Config.MaxTTL cfg.
Proof.
  intros Hv. destruct (Validate_ok_ttls cfg Hv). split; clamp_cases.
Qed.

(** X12: with a configuration that [Validate] accepts, no image is tracked
    for longer than [MaxTTL]: every [TrackImage] call that a webhook
    request or a reconciliation run makes has its [expiresAt] after the
    clock reading and at most [MaxTTL] later. *)
Theorem tracked_expiry_within_max (E : env) (cfg : Config.Config) :
  Config.Validate cfg = None ->
  (forall req w img expiresAt,
     EvTrackImage img expiresAt
       ∈ calls (snd (Hooks.ServeHTTP E (Main.hookHandler cfg) req w)) ->
     EvTrackImage img expiresAt ∈ calls w
     \/ now E < expiresAt <= now E + Config.MaxTTL cfg)
  /\ (forall w img expiresAt,
        EvTrackImage img expiresAt
          ∈ calls (snd (Recover.Run E (Main.recoverRunner cfg) w)) ->
        EvTrackImage img expiresAt ∈ calls w
        \/ now E < expiresAt <= now E + Config.MaxTTL cfg).
Proof.
  intros Hv. split.
  - intros req w img expiresAt Hin.
    destruct (ServeHTTP_calls E (Main.hookHandler cfg) req w) as (evs & Hc).
    rewrite Hc in Hin. apply elem_of_app in Hin as [Hin|Hin]; [now left|]. right.
    apply list_elem_of_In, in_map_iff in Hin as (ev & Heq & _).
    unfold Hooks.pushCall in Heq. injection Heq as _ <-.
    pose proof (effective_ttl_bounds cfg (Hooks.Tag (Hooks.Target ev)) Hv).
    unfold Time.Add. simpl. lia.
  - intros w img expiresAt Hin.
    destruct (listRepositories E) as [repos|e] eqn:Hrepos.
    + rewrite (Run_calls E _ repos w Hrepos) in Hin.
      apply elem_of_app in Hin as [Hin|Hin]; [now left|]. right.
      apply elem_of_cons in Hin as [Hin|Hin]; [discriminate|].
      apply list_elem_of_In, in_flat_map in Hin as (repo & _ & Hin).
      unfold Recover.repoCalls in Hin. destruct Hin as [Hin|Hin]; [discriminate|].
      destruct (listTags E repo) as [tags|]; [|destruct Hin].
      apply in_map_iff in Hin as (t & Heq & _).
      unfold Recover.trackCall in Heq. injection Heq as _ <-.
      pose proof (effective_ttl_bounds cfg t Hv).
      unfold Time.Add. simpl. lia.
    + rewrite (Run_not_listed E _ e w Hrepos) in Hin. simpl in Hin.
      apply elem_of_app in Hin as [Hin|Hin]; [now left|].
      apply list_elem_of_singleton in Hin. discriminate.
Qed.

Section Environment.
Context (getenv : string -> string).
Context (scanInt : string -> option Z).
Context (parseDuration : string -> option Z).

Lemma envStr_nonempty (key fallback : string) :
  fallback <> EmptyString -> Main.envStr getenv key fallback <> EmptyString.
Proof.
  intros Hf. unfold Main.envStr.
  destruct (getenv key) eqn:Hv; simpl; [exact Hf | discriminate].
Qed.

(** X13: of the values [Validate] requires, only the hook token has to come
    from the environment.  The Redis and registry URLs of [newConfig] are
    never empty; without [HOOK_TOKEN] the configuration is rejected for
    that reason; with it, and with [DEFAULT_TTL] and [MAX_TTL] unset or
    unparseable, the configuration is accepted with the defaults of one
    hour and twenty-four hours. *)
Theorem newConfig_requires_only_the_token :
  let cfg := Main.newConfig getenv scanInt parseDuration in
  Config.RedisURL cfg <> EmptyString
  /\ Config.RegistryURL cfg <> EmptyString
  /\ (getenv "HOOK_TOKEN" = EmptyString ->
      Config.Validate cfg = Some "HOOK_TOKEN is required")
  /\ (getenv "HOOK_TOKEN" <> EmptyString ->
      (getenv "DEFAULT_TTL" = EmptyString
       \/ parseDuration (getenv "DEFAULT_TTL") = None) ->
      (getenv "MAX_TTL" = EmptyString \/ parseDuration (getenv "MAX_TTL") = None) ->
      Config.Validate cfg = None
      /\ Config.DefaultTTL cfg = Time.Hour /\ Config.MaxTTL cfg = 24 * Time.Hour).
Proof.
  cbv zeta.
  assert (Hredis : Config.RedisURL (Main.newConfig getenv scanInt parseDuration)
                   <> EmptyString).
  { simpl. apply envStr_nonempty, envStr_nonempty. discriminate. }
  assert (Hreg : Config.RegistryURL (Main.newConfig getenv scanInt parseDuration)
                 <> EmptyString).
  { simpl. apply envStr_nonempty. discriminate. }
  split; [exact Hredis|]. split; [exact Hreg|].
  unfold Config.Validate.
  destruct (String.eqb_spec
    (Config.RedisURL (Main.newConfig getenv scanInt parseDuration)) "")
    as [Hr|_]; [contradiction|].
  destruct (String.eqb_spec
    (Config.RegistryURL (Main.newConfig getenv scanInt parseDuration)) "")
    as [Hr|_]; [contradiction|].
  simpl Config.HookToken. simpl Config.DefaultTTL. simpl Config.MaxTTL.
  unfold Main.envStr, Main.envDuration.
  split.
  - intros ->. reflexivity.
  - intros Htok Hdef Hmax.
    destruct (getenv "HOOK_TOKEN") eqn:Ht; [contradiction|]. simpl.
    assert (Hd : (if nonEmpty (getenv "DEFAULT_TTL")
                  then match parseDuration (getenv "DEFAULT_TTL") with
                       | Some d => d | None => Time.Hour end
                  else Time.Hour) = Time.Hour).
    { destruct Hdef as [-> | ->]; [reflexivity|].
      now destruct (nonEmpty (getenv "DEFAULT_TTL")). }
    assert (Hm : (if nonEmpty (getenv "MAX_TTL")
                  then match parseDuration (getenv "MAX_TTL") with
                       | Some d => d | None => 24 * Time.Hour end
                  else 24 * Time.Hour) = 24 * Time.Hour).
    { destruct Hmax as [-> | ->]; [reflexivity|].
      now destruct (nonEmpty (getenv "MAX_TTL")). }
    rewrite Hd, Hm. repeat split.
Qed.

End Environment.
End ConfigFacts.

Lemma tracked_expiry_within_max_witness :
  let cfg := Main.newConfig
               (fun key => if String.eqb key "HOOK_TOKEN" then "tok" else "")
               (fun _ => None) (fun _ => None) in
  Config.Validate cfg = None
  /\ forall img expiresAt,
       EvTrackImage img expiresAt
         ∈ calls (snd (Hooks.ServeHTTP healthyEnv (Main.hookHandler cfg)
                         pushRequest emptyWorld)) ->
       EvTrackImage img expiresAt ∈ calls emptyWorld
       \/ now healthyEnv < expiresAt <= now healthyEnv + Config.MaxTTL cfg.
Proof.
  cbv zeta.
  assert (H : Config.Validate
                (Main.newConfig
                   (fun key => if String.eqb key "HOOK_TOKEN" then "tok" else "")
                   (fun _ => None) (fun _ => None)) = None) by reflexivity.
  split; [exact H|].
  exact (proj1 (tracked_expiry_within_max healthyEnv _ H) pushRequest emptyWorld).
Defined.

(** ** The store, operation after operation *)

Section StoreOpsFacts.
Context (E : env).







End StoreOpsFacts.


(** ** More on the tag grammar *)

Section GrammarFacts.

(** X17: a tag is read in whole seconds: whenever the pattern matches and
    the duration fits in 64 bits, [ParseTTL] returns [-1] or a non-negative
    whole number of seconds, so a positive parse result is at least one
    second. *)
Theorem ParseTTL_whole_seconds (tag : string) (matches : list string) :
  FindStringSubmatch tag = Some matches ->
  exactTTL matches <= Int64.MaxInt64 ->
  ParseTTL tag = -1
  \/ exists k, 0 <= k /\ ParseTTL tag = k * Time.Second
               /\ (0 < ParseTTL tag -> Time.Second <= ParseTTL tag).
Proof.
  intros Hm Hfit. unfold ParseTTL. rewrite Hm.
  destruct (String.eqb tag EmptyString); [now left|].
  destruct (existsb nonEmpty (tl matches)); [|now left].
  right. cbv zeta. simpl negb. cbv iota.
  destruct (FindStringSubmatch_shape tag matches Hm) as (w & d & h & m & s0 & -> & Hall).
  rewrite components_exact; [|exact Hall|reflexivity|exact Hfit].
  inversion_clear Hall as [|? ? Hw Hall1].
  inversion_clear Hall1 as [|? ? Hd Hall2].
  inversion_clear Hall2 as [|? ? Hh Hall3].
  inversion_clear Hall3 as [|? ? Hmi Hall4].
  inversion_clear Hall4 as [|? ? Hs _].
  pose proof (decimal_nonneg _ Hw). pose proof (decimal_nonneg _ Hd).
  pose proof (decimal_nonneg _ Hh). pose proof (decimal_nonneg _ Hmi).
  pose proof (decimal_nonneg _ Hs).
  exists (decimal 0 w * 604800 + decimal 0 d * 86400 + decimal 0 h * 3600
          + decimal 0 m * 60 + decimal 0 s0).
  unfold exactTTL, index. simpl nth.
  unfold Time.Hour, Time.Minute, Time.Second. lia.
Qed.

Lemma ParseTTL_whole_seconds_witness :
  FindStringSubmatch "1h30m" = Some ["1h30m"; ""; ""; "1"; "30"; ""]
  /\ exactTTL ["1h30m"; ""; ""; "1"; "30"; ""] <= Int64.MaxInt64
  /\ (ParseTTL "1h30m" = -1
      \/ exists k, 0 <= k /\ ParseTTL "1h30m" = k * Time.Second
                   /\ (0 < ParseTTL "1h30m" -> Time.Second <= ParseTTL "1h30m")).
Proof.
  assert (H1 : FindStringSubmatch "1h30m" = Some ["1h30m"; ""; ""; "1"; "30"; ""])
    by reflexivity.
  assert (H2 : exactTTL ["1h30m"; ""; ""; "1"; "30"; ""] <= Int64.MaxInt64)
    by (vm_compute; discriminate).
  split; [exact H1|]. split; [exact H2|].
  exact (ParseTTL_whole_seconds "1h30m" _ H1 H2).
Defined.

Lemma optGroup_other_byte (u c : ascii) (ds r : string) :
  allDigits ds = true -> isDigit c = false -> c <> u ->
  optGroup u (ds +:+ String c r) = (EmptyString, ds +:+ String c r).
Proof.
  intros Hd Hc Hne. unfold optGroup. rewrite (digitsPrefix_stop ds c r Hd Hc).
  destruct ds; [reflexivity|].
  destruct (Ascii.eqb_spec c u); [contradiction|reflexivity].
Qed.

(** Digits followed by a byte that is none of the remaining unit letters
    cannot be matched. *)
Lemma matchGroups_stuck (us : list ascii) (ds : string) (c : ascii) (r : string) :
  allDigits ds = true -> isDigit c = false -> ~ In c us ->
  matchGroups us (ds +:+ String c r) = None.
Proof.
  intros Hd Hc. induction us as [|u us IH]; intros Hnot.
  - simpl. destruct ds; reflexivity.
  - simpl. rewrite optGroup_other_byte; try assumption.
    + rewrite IH; [reflexivity|]. intros Hin. apply Hnot. now right.
    + intros ->. apply Hnot. now left.
Qed.

Lemma matchGroups_pass (pre us : list ascii) (ds : string) (c : ascii) (r : string) :
  allDigits ds = true -> isDigit c = false -> ~ In c pre ->
  matchGroups us (ds +:+ String c r) = None ->
  matchGroups (pre ++ us) (ds +:+ String c r) = None.
Proof.
  intros Hd Hc. induction pre as [|u pre IH]; intros Hnot Hnone; [exact Hnone|].
  simpl. rewrite optGroup_other_byte; try assumption.
  - rewrite IH; [reflexivity| |exact Hnone]. intros Hin. apply Hnot. now right.
  - intros ->. apply Hnot. now left.
Qed.

(** X18: the units of a tag have to come in the order w, d, h, m, s, each
    at most once: a tag in which a magnitude with its unit letter is
    followed by digits (or none) and then a byte that is not one of the
    later unit letters - the same unit, an earlier one, or no unit at
    all - is unparseable. *)
Theorem ParseTTL_units_in_order (pre post : list ascii) (u v : ascii)
    (a b rest : string) :
  units = pre ++ u :: post ->
  ~ In v post -> isDigit v = false ->
  a <> EmptyString -> allDigits a = true -> allDigits b = true ->
  ParseTTL (a +:+ String u (b +:+ String v rest)) = -1.
Proof.
  intros Hunits Hv Hvd Hane Ha Hb.
  assert (Hnd : List.NoDup units)
    by (unfold units; repeat constructor; simpl; intuition discriminate).
  assert (Hud : isDigit u = false).
  { assert (Hin : In u units) by (rewrite Hunits; apply in_elt).
    unfold units in Hin. simpl in Hin.
    destruct Hin as [<-|[<-|[<-|[<-|[<-|[]]]]]]; reflexivity. }
  assert (Hupre : ~ In u pre).
  { rewrite Hunits in Hnd. apply NoDup_remove_2 in Hnd.
    intros Hin. apply Hnd. apply in_or_app. now left. }
  assert (Hnone : FindStringSubmatch (a +:+ String u (b +:+ String v rest)) = None).
  { rewrite FindStringSubmatch_matchGroups, Hunits.
    rewrite matchGroups_pass; try assumption; [reflexivity|].
    simpl.
    change (a +:+ String u (b +:+ String v rest))
      with (a +:+ (String u EmptyString +:+ (b +:+ String v rest))).
    rewrite <- append_assoc.
    rewrite (optGroup_present u a _ Hane Ha Hud).
    now rewrite matchGroups_stuck. }
  unfold ParseTTL. rewrite Hnone.
  now destruct (String.eqb _ _).
Qed.

Lemma ParseTTL_units_in_order_witness :
  units = ["w"; "d"; "h"]%char ++ "m"%char :: ["s"]%char
  /\ ~ In "h"%char ["s"]%char
  /\ ParseTTL "30m1h" = -1.
Proof.
  assert (H1 : units = ["w"; "d"; "h"]%char ++ "m"%char :: ["s"]%char) by reflexivity.
  assert (H2 : ~ In "h"%char ["s"]%char) by (simpl; intuition discriminate).
  split; [exact H1|]. split; [exact H2|].
  exact (ParseTTL_units_in_order ["w"; "d"; "h"]%char ["s"]%char "m" "h" "30" "1" ""
           H1 H2 eq_refl ltac:(discriminate) eq_refl eq_refl).
Defined.

End GrammarFacts.

Section DaysFacts.
Context (durationString : Z -> string).

Lemma FindStringSubmatch_space (ds rest : string) :
  allDigits ds = true -> FindStringSubmatch (ds +:+ String " " rest) = None.
Proof.
  intros Hd. rewrite FindStringSubmatch_matchGroups.
  rewrite matchGroups_stuck; try assumption; [reflexivity| reflexivity|].
  unfold units. simpl. intuition discriminate.
Qed.

(** X2: a duration of whole days is printed on the landing page as
    [1 day] or [N days], which is not a tag: [ParseTTL] reports it
    unparseable. *)
Theorem formatDuration_days_not_a_tag (d : Z) :
  24 * Time.Hour <= d -> Z.rem d (24 * Time.Hour) = 0 ->
  (Web.formatDuration durationString d = "1 day"
   \/ Web.formatDuration durationString d
      = Fmt.Itoa (Z.quot d (24 * Time.Hour)) +:+ " days")
  /\ ParseTTL (Web.formatDuration durationString d) = -1.
Proof.
  intros Hge Hrem. unfold Web.formatDuration.
  assert (Hg : (d >=? 24 * Time.Hour) = true) by now apply Z.geb_le.
  rewrite Hg, Hrem. simpl andb. cbv iota.
  destruct (Z.quot d (24 * Time.Hour) =? 1) eqn:Hone.
  - split; [now left | reflexivity].
  - split; [now right|].
    assert (Hq : 0 <= Z.quot d (24 * Time.Hour)).
    { apply Z.quot_pos; [|reflexivity].
      unfold Time.Hour, Time.Minute, Time.Second in Hge. lia. }
    destruct (Itoa_nonneg _ Hq) as (Hne & Hall & _).
    unfold ParseTTL.
    change (Fmt.Itoa (Z.quot d (24 * Time.Hour)) +:+ " days")
      with (Fmt.Itoa (Z.quot d (24 * Time.Hour)) +:+ String " " "days").
    rewrite (FindStringSubmatch_space _ "days" Hall).
    now destruct (String.eqb _ _).
Qed.

End DaysFacts.

Lemma formatDuration_days_not_a_tag_witness :
  24 * Time.Hour <= 48 * Time.Hour /\ Z.rem (48 * Time.Hour) (24 * Time.Hour) = 0
  /\ Web.formatDuration (fun _ => EmptyString) (48 * Time.Hour) = "2 days"
  /\ ParseTTL (Web.formatDuration (fun _ => EmptyString) (48 * Time.Hour)) = -1.
Proof.
  assert (H1 : 24 * Time.Hour <= 48 * Time.Hour) by (vm_compute; discriminate).
  assert (H2 : Z.rem (48 * Time.Hour) (24 * Time.Hour) = 0) by reflexivity.
  split; [exact H1|]. split; [exact H2|]. split; [vm_compute; reflexivity|].
  exact (proj2 (formatDuration_days_not_a_tag (fun _ => EmptyString)
                  (48 * Time.Hour) H1 H2)).
Defined.

(** ** More of the repository's tests, replayed *)

Section ReplayedClient.

(** TestFormatDuration. *)
Example test_formatDuration :
  map (Web.formatDuration (fun _ => EmptyString))
      [Time.Hour; 2 * Time.Hour; 30 * Time.Minute; 24 * Time.Hour; 48 * Time.Hour;
       90 * Time.Minute]
  = ["1h"; "2h"; "30m"; "1 day"; "2 days"; "90m"].
Proof. vm_compute. reflexivity. Qed.

(** TestListRepositories_Pagination: the first page links to the second. *)
Example test_ListRepositories_Pagination :
  let T := {| Client.newRequestErr := fun _ => None;
              Client.roundTrip := fun url =>
                if String.eqb url "http://registry:5000/v2/_catalog?n=1000"
                then Ok {| Client.decoded := Ok ["app1"];
                           Client.linkHeader := "</v2/_catalog?n=1000&last=app1>; rel=next" |}
                else Ok {| Client.decoded := Ok ["app2"];
                           Client.linkHeader := "" |} |} in
  Client.ListRepositories T (Client.New "http://registry:5000") 1 = None
  /\ Client.ListRepositories T (Client.New "http://registry:5000") 2
     = Some (Ok ["app1"; "app2"]).
Proof. vm_compute. split; reflexivity. Qed.

(** A failure on the second page fails the whole listing. *)
Example ListTags_second_page_fails :
  let T := {| Client.newRequestErr := fun _ => None;
              Client.roundTrip := fun url =>
                if String.eqb url "http://registry:5000/v2/myapp/tags/list?n=1000"
                then Ok {| Client.decoded := Ok ["1h"; "30m"];
                           Client.linkHeader := "</v2/myapp/tags/list?n=1000&last=30m>" |}
                else Err "connection reset" |} in
  Client.ListTags T (Client.New "http://registry:5000/") 5 "myapp"
    = Some (Err "listing tags for myapp: connection reset").
Proof. vm_compute. reflexivity. Qed.

End ReplayedClient.
